(** * Fee calculator (scripts/feecalc.py): computation units of a transaction

    The script prices a transaction from five integer metrics.  Two of the
    derived quantities go through Python floats:

      cycle_bucket = math.ceil(math.log2(num_cycles))
      kilo_bytes   = math.ceil((created + delta) / 1000)

    Python integers are unbounded and are modelled by [Z].  A Python float is
    an IEEE-754 binary64 number; every float that occurs here is finite and is
    modelled by the rational it denotes, with each rounding step written out
    (round to nearest, ties to even, 53 bits of precision).  The true
    division of integers is correctly rounded; the logarithm of the C library
    is taken to be correctly rounded as well, exact on the powers of two, and
    is computed by a digit recurrence.  *)

From Stdlib Require Import ZArith QArith Qround Qabs Qpower Lia Lqa Bool.

Local Open Scope Z_scope.

(* ================================================================== *)
(** ** Powers of two over the rationals *)

Module Pow2.
Local Open Scope Q_scope.

Definition pow2 (e : Z) : Q := 2 ^ e.

Lemma two_neq_0 : ~ 2 == 0.
Proof. discriminate. Qed.

Lemma pow2_pos e : 0 < pow2 e.
Proof. apply Qpower_0_lt. reflexivity. Qed.

Lemma pow2_add a b : pow2 (a + b) == pow2 a * pow2 b.
Proof. apply Qpower_plus, two_neq_0. Qed.

Lemma pow2_sub a b : pow2 (a - b) == pow2 a / pow2 b.
Proof. apply Qpower_minus, two_neq_0. Qed.

Lemma pow2_0 : pow2 0 == 1.
Proof. reflexivity. Qed.

Lemma pow2_1 : pow2 1 == 2.
Proof. reflexivity. Qed.

Lemma pow2_succ e : pow2 (e + 1) == 2 * pow2 e.
Proof. rewrite pow2_add, pow2_1. ring. Qed.

Lemma pow2_pred e : pow2 (e - 1) == (1 # 2) * pow2 e.
Proof. rewrite pow2_sub, pow2_1. field. Qed.

Lemma pow2_le a b : (a <= b)%Z -> pow2 a <= pow2 b.
Proof. intros H. apply Qpower_le_compat_l; [exact H | discriminate]. Qed.

Lemma pow2_lt a b : (a < b)%Z -> pow2 a < pow2 b.
Proof. intros H. apply Qpower_lt_compat_l; [exact H | reflexivity]. Qed.

Lemma pow2_le_inv a b : pow2 a <= pow2 b -> (a <= b)%Z.
Proof. intros H. apply (Qpower_le_compat_l_inv 2); [exact H | reflexivity]. Qed.

Lemma pow2_lt_inv a b : pow2 a < pow2 b -> (a < b)%Z.
Proof. intros H. apply (Qpower_lt_compat_l_inv 2); [exact H | reflexivity]. Qed.

Lemma pow2_Z e : (0 <= e)%Z -> pow2 e == inject_Z (2 ^ e).
Proof. intros H. unfold pow2. rewrite Zpower_Qpower by exact H. reflexivity. Qed.

Lemma pow2_ge_1 e : (0 <= e)%Z -> 1 <= pow2 e.
Proof. intros H. rewrite <- pow2_0. apply pow2_le, H. Qed.

Lemma pow2_inv e : pow2 (- e) == / pow2 e.
Proof. apply Qpower_opp. Qed.

Lemma pow2_mul_inv e : pow2 e * pow2 (- e) == 1.
Proof. rewrite <- pow2_add, Z.add_opp_diag_r. reflexivity. Qed.

End Pow2.
Export Pow2.

(* ================================================================== *)
(** ** Binary logarithm and nearest integer of a rational *)

Module Rat.
Local Open Scope Q_scope.

(** [ilog2 r] is the integer [e] with [2^e <= r < 2^(e+1)], for [0 < r]. *)
Definition ilog2 (r : Q) : Z :=
  let d := (Z.log2 (Qnum r) - Z.log2 (Zpos (Qden r)))%Z in
  if Qle_bool (pow2 d) r then d else (d - 1)%Z.

(** Nearest integer, ties to the even one. *)
Definition round_half_even (r : Q) : Z :=
  let f := Qfloor r in
  match Qcompare (r - inject_Z f) (1 # 2) with
  | Lt => f
  | Gt => (f + 1)%Z
  | Eq => if Z.even f then f else (f + 1)%Z
  end.

Lemma Qnum_pos r : 0 < r -> (0 < Qnum r)%Z.
Proof. destruct r as [p q]. unfold Qlt. simpl. lia. Qed.

Lemma Q_as_div r : r == inject_Z (Qnum r) / inject_Z (Zpos (Qden r)).
Proof. destruct r as [p q]. apply Qmake_Qdiv. Qed.

Lemma inject_Z_lt a b : (a < b)%Z -> inject_Z a < inject_Z b.
Proof. intros H. rewrite <- Zlt_Qlt. exact H. Qed.

Lemma inject_Z_le a b : (a <= b)%Z -> inject_Z a <= inject_Z b.
Proof. intros H. rewrite <- Zle_Qle. exact H. Qed.

Lemma ilog2_spec r : 0 < r -> pow2 (ilog2 r) <= r /\ r < pow2 (ilog2 r + 1).
Proof.
  intros Hr. pose proof (Qnum_pos r Hr) as Hp.
  pose proof (Z.log2_spec (Qnum r) Hp) as [Hp1 Hp2].
  assert (Hq : (0 < Zpos (Qden r))%Z) by reflexivity.
  pose proof (Z.log2_spec _ Hq) as [Hq1 Hq2].
  pose proof (Z.log2_nonneg (Qnum r)) as Hlp.
  pose proof (Z.log2_nonneg (Zpos (Qden r))) as Hlq.
  set (lp := Z.log2 (Qnum r)) in *. set (lq := Z.log2 (Zpos (Qden r))) in *.
  apply inject_Z_le in Hp1. apply inject_Z_lt in Hp2.
  apply inject_Z_le in Hq1. apply inject_Z_lt in Hq2.
  rewrite <- pow2_Z in Hp1, Hq1 by lia.
  rewrite <- Z.add_1_r, <- pow2_Z in Hp2, Hq2 by lia.
  pose proof (Q_as_div r) as Er.
  set (P := inject_Z (Qnum r)) in *. set (D := inject_Z (Zpos (Qden r))) in *.
  assert (HD : 0 < D) by (apply (inject_Z_lt 0); reflexivity).
  assert (ErD : r * D == P) by (rewrite Er; field; lra).
  pose proof (pow2_pos lq) as Hlq0. pose proof (pow2_pos lp) as Hlp0.
  unfold ilog2. fold lp lq.
  destruct (Qle_bool (pow2 (lp - lq)) r) eqn:Hb.
  - apply Qle_bool_iff in Hb. split; [exact Hb|].
    replace (lp - lq + 1)%Z with ((lp + 1) - lq)%Z by lia.
    rewrite pow2_sub. apply Qlt_shift_div_l; [exact Hlq0|].
    apply Qle_lt_trans with (r * D); [|lra].
    apply Qmult_le_l; lra.
  - assert (Hlt : r < pow2 (lp - lq)).
    { apply Qnot_le_lt. intros H. apply Qle_bool_iff in H. congruence. }
    split.
    + replace (lp - lq - 1)%Z with (lp - (lq + 1))%Z by lia.
      rewrite pow2_sub. apply Qle_shift_div_r; [apply pow2_pos|].
      apply Qle_trans with (r * D); [lra|].
      apply Qmult_le_l; lra.
    + replace (lp - lq - 1 + 1)%Z with (lp - lq)%Z by lia. exact Hlt.
Qed.

Lemma ilog2_unique r e : pow2 e <= r -> r < pow2 (e + 1) -> ilog2 r = e.
Proof.
  intros H1 H2.
  assert (Hr : 0 < r) by (pose proof (pow2_pos e); lra).
  destruct (ilog2_spec r Hr) as [H3 H4].
  assert (e < ilog2 r + 1)%Z by (apply pow2_lt_inv; lra).
  assert (ilog2 r < e + 1)%Z by (apply pow2_lt_inv; lra).
  lia.
Qed.

Lemma ilog2_mono r s : 0 < r -> r <= s -> (ilog2 r <= ilog2 s)%Z.
Proof.
  intros Hr Hrs.
  destruct (ilog2_spec r Hr) as [H1 _].
  destruct (ilog2_spec s) as [_ H2]; [lra|].
  assert (ilog2 r < ilog2 s + 1)%Z by (apply pow2_lt_inv; lra).
  lia.
Qed.

Lemma ilog2_pow2 e : ilog2 (pow2 e) = e.
Proof. apply ilog2_unique; [lra | apply pow2_lt; lia]. Qed.

Lemma ilog2_lt r e : 0 < r -> r < pow2 e -> (ilog2 r < e)%Z.
Proof.
  intros Hr H. destruct (ilog2_spec r Hr) as [H1 _].
  apply pow2_lt_inv. lra.
Qed.

Lemma ilog2_ge r e : pow2 e <= r -> (e <= ilog2 r)%Z.
Proof.
  intros H. assert (Hr : 0 < r) by (pose proof (pow2_pos e); lra).
  destruct (ilog2_spec r Hr) as [_ H2].
  assert (e < ilog2 r + 1)%Z by (apply pow2_lt_inv; lra). lia.
Qed.

(** *** Nearest integer *)

Lemma Qcompare_cases x y :
  (Qcompare x y = Lt /\ x < y) \/ (Qcompare x y = Eq /\ x == y) \/
  (Qcompare x y = Gt /\ y < x).
Proof.
  destruct (Qcompare x y) eqn:E.
  - right; left. split; [reflexivity | apply Qeq_alt, E].
  - left. split; [reflexivity | apply Qlt_alt, E].
  - right; right. split; [reflexivity | apply Qgt_alt, E].
Qed.

Lemma floor_bounds r :
  inject_Z (Qfloor r) <= r /\ r < inject_Z (Qfloor r) + 1.
Proof.
  split; [apply Qfloor_le|].
  pose proof (Qlt_floor r) as H. rewrite inject_Z_plus in H. exact H.
Qed.

Lemma round_half_even_cases r :
  (round_half_even r = Qfloor r /\ r - inject_Z (Qfloor r) <= 1 # 2) \/
  (round_half_even r = (Qfloor r + 1)%Z /\ 1 # 2 <= r - inject_Z (Qfloor r)).
Proof.
  unfold round_half_even.
  destruct (Qcompare_cases (r - inject_Z (Qfloor r)) (1 # 2))
    as [[E H] | [[E H] | [E H]]]; rewrite E.
  - left. split; [reflexivity | lra].
  - destruct (Z.even (Qfloor r)); [left | right]; split; try reflexivity; lra.
  - right. split; [reflexivity | lra].
Qed.

Lemma round_half_even_error r :
  r - (1 # 2) <= inject_Z (round_half_even r) /\
  inject_Z (round_half_even r) <= r + (1 # 2).
Proof.
  pose proof (floor_bounds r) as [H1 H2].
  destruct (round_half_even_cases r) as [[E H] | [E H]]; rewrite E;
    try (rewrite inject_Z_plus; change (inject_Z 1) with 1); split; lra.
Qed.

Lemma round_half_even_Z z : round_half_even (inject_Z z) = z.
Proof.
  unfold round_half_even. rewrite Qfloor_Z.
  destruct (Qcompare_cases (inject_Z z - inject_Z z) (1 # 2))
    as [[E H] | [[E H] | [E H]]]; rewrite E; try reflexivity; lra.
Qed.

Lemma round_half_even_mono r s :
  r <= s -> (round_half_even r <= round_half_even s)%Z.
Proof.
  intros Hrs. pose proof (Qfloor_resp_le r s Hrs) as Hf.
  destruct (Z.eq_dec (Qfloor r) (Qfloor s)) as [Ef | Nf].
  - unfold round_half_even. rewrite <- Ef.
    destruct (Qcompare_cases (r - inject_Z (Qfloor r)) (1 # 2))
      as [[E H] | [[E H] | [E H]]]; rewrite E;
    destruct (Qcompare_cases (s - inject_Z (Qfloor r)) (1 # 2))
      as [[E' H'] | [[E' H'] | [E' H']]]; rewrite E';
    try destruct (Z.even (Qfloor r)); try lia; lra.
  - destruct (round_half_even_cases r) as [[E _] | [E _]];
    destruct (round_half_even_cases s) as [[E' _] | [E' _]]; lia.
Qed.

Lemma round_half_even_comp r s : r == s -> round_half_even r = round_half_even s.
Proof.
  intros E. apply Z.le_antisymm; apply round_half_even_mono; lra.
Qed.

Lemma round_half_even_le_Z r z : r <= inject_Z z -> (round_half_even r <= z)%Z.
Proof.
  intros H. rewrite <- (round_half_even_Z z). apply round_half_even_mono, H.
Qed.

Lemma round_half_even_ge_Z r z : inject_Z z <= r -> (z <= round_half_even r)%Z.
Proof.
  intros H. rewrite <- (round_half_even_Z z). apply round_half_even_mono, H.
Qed.

Lemma round_half_even_ge_floor r : (Qfloor r <= round_half_even r)%Z.
Proof. destruct (round_half_even_cases r) as [[E _] | [E _]]; lia. Qed.

(** From half a unit below an even integer on, the nearest integer is at
    least that integer. *)
Lemma round_half_even_up_to_even r z : Z.even z = true ->
  inject_Z z - (1 # 2) <= r -> (z <= round_half_even r)%Z.
Proof.
  intros Hz H. pose proof (floor_bounds r) as [H1 H2].
  assert (Hf : (z - 1 <= Qfloor r)%Z).
  { rewrite <- (Qfloor_Z (z - 1)). apply Qfloor_resp_le.
    unfold Z.sub. rewrite inject_Z_plus. change (inject_Z (- (1))) with (- (1)).
    lra. }
  destruct (Z.eq_dec (Qfloor r) (z - 1)) as [E | N].
  - assert (Ho : Z.even (Qfloor r) = false).
    { rewrite E, Z.even_sub, Hz. reflexivity. }
    unfold round_half_even. rewrite Ho.
    assert (Ei : inject_Z (Qfloor r) == inject_Z z - 1).
    { rewrite E. unfold Z.sub. rewrite inject_Z_plus. reflexivity. }
    destruct (Qcompare_cases (r - inject_Z (Qfloor r)) (1 # 2))
      as [[Ec Hc] | [[Ec Hc] | [Ec Hc]]]; rewrite Ec; try lia.
    lra.
  - pose proof (round_half_even_ge_floor r). lia.
Qed.

End Rat.
Export Rat.

(* ================================================================== *)
(** ** IEEE-754 binary64: round to nearest, ties to even *)

Module Binary64.
Local Open Scope Q_scope.

(** A finite binary64 value, held as the rational it denotes. *)
Definition float : Type := Q.

(** Exponent of the unit in the last place of the binade of [r]:
    53 significant bits, subnormals below [2^-1022]. *)
Definition ulp_exp (r : Q) : Z := Z.max (ilog2 r - 52) (-1074).

Definition round_pos (r : Q) : float :=
  inject_Z (round_half_even (r / pow2 (ulp_exp r))) * pow2 (ulp_exp r).

(** Nearest binary64 value of a rational, before the range check. *)
Definition round (r : Q) : float :=
  match Qcompare r 0 with
  | Eq => 0
  | Gt => round_pos r
  | Lt => - round_pos (- r)
  end.

(** The rounded value lies outside the finite range of the format. *)
Definition overflows (v : float) : bool := Qle_bool (pow2 1024) (Qabs v).

(** [math.ceil] on a finite float: an exact integer. *)
Definition ceil (v : float) : Z := Qceiling v.

Lemma ulp_exp_mono r s : 0 < r -> r <= s -> (ulp_exp r <= ulp_exp s)%Z.
Proof.
  intros Hr Hrs. pose proof (ilog2_mono r s Hr Hrs). unfold ulp_exp. lia.
Qed.

Lemma div_pow2 r u : r / pow2 u * pow2 u == r.
Proof. pose proof (pow2_pos u). field. lra. Qed.

Lemma grid_rescale m k u : (u <= k)%Z ->
  inject_Z m * pow2 k == inject_Z (m * 2 ^ (k - u)) * pow2 u.
Proof.
  intros H. rewrite inject_Z_mult, <- pow2_Z by lia.
  rewrite <- Qmult_assoc, <- pow2_add.
  replace (k - u + u)%Z with k by lia. reflexivity.
Qed.

Lemma round_pos_error r :
  r - pow2 (ulp_exp r - 1) <= round_pos r /\
  round_pos r <= r + pow2 (ulp_exp r - 1).
Proof.
  unfold round_pos. set (u := ulp_exp r).
  pose proof (round_half_even_error (r / pow2 u)) as [H1 H2].
  pose proof (pow2_pos u) as Hu. pose proof (div_pow2 r u) as E.
  rewrite pow2_pred.
  set (q := r / pow2 u) in *. set (n := inject_Z (round_half_even q)) in *.
  set (p := pow2 u) in *. clearbody n q p.
  split; nra.
Qed.

Lemma round_pos_le_grid r m k : (ulp_exp r <= k)%Z ->
  r <= inject_Z m * pow2 k -> round_pos r <= inject_Z m * pow2 k.
Proof.
  intros Hk H. rewrite (grid_rescale m k (ulp_exp r) Hk) in *.
  unfold round_pos. pose proof (pow2_pos (ulp_exp r)) as Hu.
  apply Qmult_le_compat_r; [|lra].
  apply inject_Z_le, round_half_even_le_Z.
  apply Qle_shift_div_r; [exact Hu | exact H].
Qed.

Lemma round_pos_ge_grid r m k : (ulp_exp r <= k)%Z ->
  inject_Z m * pow2 k <= r -> inject_Z m * pow2 k <= round_pos r.
Proof.
  intros Hk H. rewrite (grid_rescale m k (ulp_exp r) Hk) in *.
  unfold round_pos. pose proof (pow2_pos (ulp_exp r)) as Hu.
  apply Qmult_le_compat_r; [|lra].
  apply inject_Z_le, round_half_even_ge_Z.
  apply Qle_shift_div_l; [exact Hu | exact H].
Qed.

Lemma round_pos_exact r m k : (ulp_exp r <= k)%Z ->
  r == inject_Z m * pow2 k -> round_pos r == r.
Proof.
  intros Hk E. apply Qle_antisym.
  - rewrite E at 2. apply round_pos_le_grid; [exact Hk | lra].
  - rewrite E at 1. apply round_pos_ge_grid; [exact Hk | lra].
Qed.

Lemma div_le_compat r s p : 0 < p -> r <= s -> r / p <= s / p.
Proof.
  intros Hp H. unfold Qdiv. apply Qmult_le_compat_r; [exact H|].
  apply Qlt_le_weak, Qinv_lt_0_compat, Hp.
Qed.

Lemma round_pos_nonneg r : 0 < r -> 0 <= round_pos r.
Proof.
  intros Hr. unfold round_pos. pose proof (pow2_pos (ulp_exp r)) as Hu.
  apply Qmult_le_0_compat; [|lra].
  apply (inject_Z_le 0), round_half_even_ge_Z.
  apply Qle_shift_div_l; [exact Hu | change (inject_Z 0) with 0; lra].
Qed.

Lemma round_pos_mono r s : 0 < r -> r <= s -> round_pos r <= round_pos s.
Proof.
  intros Hr Hrs. assert (Hs : 0 < s) by lra.
  pose proof (ulp_exp_mono r s Hr Hrs) as Hu.
  destruct (Z.eq_dec (ulp_exp r) (ulp_exp s)) as [E | N].
  - unfold round_pos. rewrite <- E.
    pose proof (pow2_pos (ulp_exp r)) as Hp.
    apply Qmult_le_compat_r; [|lra].
    apply inject_Z_le, round_half_even_mono, div_le_compat; assumption.
  - destruct (ilog2_spec r Hr) as [_ Hr2]. destruct (ilog2_spec s Hs) as [Hs1 _].
    assert (Hlt : (ulp_exp r < ulp_exp s)%Z) by lia.
    assert (HE : (ilog2 r + 1 <= ilog2 s)%Z) by (unfold ulp_exp in *; lia).
    pose proof (pow2_le _ _ HE) as Hpw.
    apply Qle_trans with (inject_Z 1 * pow2 (ilog2 s)).
    + apply round_pos_le_grid; [unfold ulp_exp in *; lia|].
      change (inject_Z 1) with 1. lra.
    + apply round_pos_ge_grid; [unfold ulp_exp in *; lia|].
      change (inject_Z 1) with 1. lra.
Qed.

(** *** The signed rounding *)

Lemma round_pos_eq r : 0 < r -> round r = round_pos r.
Proof.
  intros Hr. unfold round.
  destruct (Qcompare_cases r 0) as [[E H] | [[E H] | [E H]]]; rewrite E;
    try reflexivity; lra.
Qed.

Lemma round_zero r : r == 0 -> round r = 0.
Proof.
  intros Hr. unfold round.
  destruct (Qcompare_cases r 0) as [[E H] | [[E H] | [E H]]]; rewrite E;
    try reflexivity; lra.
Qed.

Lemma round_neg_eq r : r < 0 -> round r = - round_pos (- r).
Proof.
  intros Hr. unfold round.
  destruct (Qcompare_cases r 0) as [[E H] | [[E H] | [E H]]]; rewrite E;
    try reflexivity; lra.
Qed.

Lemma round_nonneg r : 0 <= r -> 0 <= round r.
Proof.
  intros Hr. destruct (Qle_lt_or_eq _ _ Hr) as [H | H].
  - rewrite round_pos_eq by exact H. apply round_pos_nonneg, H.
  - rewrite round_zero by (symmetry; exact H). lra.
Qed.

Lemma round_mono r s : 0 <= r -> r <= s -> round r <= round s.
Proof.
  intros Hr Hrs. destruct (Qle_lt_or_eq _ _ Hr) as [H | H].
  - rewrite !round_pos_eq by lra. apply round_pos_mono; assumption.
  - rewrite (round_zero r) by (symmetry; exact H). apply round_nonneg. lra.
Qed.

Lemma round_comp r s : 0 <= r -> r == s -> round r == round s.
Proof.
  intros Hr E. apply Qle_antisym; apply round_mono; lra.
Qed.

Lemma round_exact r m k : 0 <= r -> (ulp_exp r <= k)%Z ->
  r == inject_Z m * pow2 k -> round r == r.
Proof.
  intros Hr Hk E. destruct (Qle_lt_or_eq _ _ Hr) as [H | H].
  - rewrite round_pos_eq by exact H. apply (round_pos_exact r m k); assumption.
  - rewrite round_zero by (symmetry; exact H). exact H.
Qed.

Lemma round_error r : 0 < r ->
  r - pow2 (ulp_exp r - 1) <= round r /\ round r <= r + pow2 (ulp_exp r - 1).
Proof. intros Hr. rewrite round_pos_eq by exact Hr. apply round_pos_error. Qed.

Lemma ilog2_Z_lt z j : (0 < z < 2 ^ j)%Z -> (0 <= j)%Z ->
  (ilog2 (inject_Z z) < j)%Z.
Proof.
  intros Hz Hj. apply ilog2_lt; [apply (inject_Z_lt 0); lia|].
  rewrite pow2_Z by lia. apply inject_Z_lt. lia.
Qed.

(** Integers up to [2^53] are binary64 values. *)
Lemma round_Z z : (0 <= z <= 2 ^ 53)%Z -> round (inject_Z z) == inject_Z z.
Proof.
  intros Hz.
  assert (H0 : 0 <= inject_Z z) by (apply (inject_Z_le 0); lia).
  destruct (Z.eq_dec z 0) as [Z0 | NZ]; [subst z; reflexivity|].
  destruct (Z.eq_dec z (2 ^ 53)) as [E | N].
  - apply (round_exact _ (2 ^ 52) 1); [exact H0 | | ].
    + pose proof (ilog2_Z_lt z 54). unfold ulp_exp. lia.
    + subst z. rewrite pow2_1, <- (inject_Z_mult _ 2). reflexivity.
  - apply (round_exact _ z 0); [exact H0 | | rewrite pow2_0; ring].
    pose proof (ilog2_Z_lt z 53). unfold ulp_exp. lia.
Qed.

(** Powers of two in the normal and subnormal range are binary64 values. *)
Lemma round_pow2 k : (-1074 <= k)%Z -> round (pow2 k) == pow2 k.
Proof.
  intros Hk. pose proof (pow2_pos k) as Hp.
  apply (round_exact _ 1 k); [lra | | change (inject_Z 1) with 1; ring].
  unfold ulp_exp. rewrite ilog2_pow2. lia.
Qed.

Lemma round_le_Z r z : 0 <= r -> (0 <= z <= 2 ^ 53)%Z ->
  r <= inject_Z z -> round r <= inject_Z z.
Proof.
  intros Hr Hz H. rewrite <- (round_Z z Hz). apply round_mono; assumption.
Qed.

Lemma round_ge_Z r z : (0 <= z <= 2 ^ 53)%Z ->
  inject_Z z <= r -> inject_Z z <= round r.
Proof.
  intros Hz H. rewrite <- (round_Z z Hz). apply round_mono; [|exact H].
  apply (inject_Z_le 0). lia.
Qed.

(** *** Scaling by a power of two, in the normal range *)

Lemma ilog2_scale r j : 0 < r -> ilog2 (r * pow2 j) = (ilog2 r + j)%Z.
Proof.
  intros Hr. destruct (ilog2_spec r Hr) as [H1 H2].
  pose proof (pow2_pos j) as Hj.
  apply ilog2_unique.
  - rewrite pow2_add. apply Qmult_le_compat_r; lra.
  - replace (ilog2 r + j + 1)%Z with (ilog2 r + 1 + j)%Z by lia.
    rewrite pow2_add. apply Qmult_lt_compat_r; lra.
Qed.

Lemma round_scale r j : 0 < r -> (-1022 <= ilog2 r)%Z -> (-1022 <= ilog2 r + j)%Z ->
  round (r * pow2 j) == round r * pow2 j.
Proof.
  intros Hr H1 H2. pose proof (pow2_pos j) as Hj.
  assert (Hrj : 0 < r * pow2 j) by (apply Qmult_lt_0_compat; assumption).
  rewrite !round_pos_eq by assumption. unfold round_pos.
  assert (Eu : ulp_exp (r * pow2 j) = (ulp_exp r + j)%Z).
  { unfold ulp_exp. rewrite ilog2_scale by exact Hr. lia. }
  rewrite Eu.
  rewrite (round_half_even_comp (r * pow2 j / pow2 (ulp_exp r + j))
                                (r / pow2 (ulp_exp r))).
  - rewrite pow2_add. ring.
  - rewrite pow2_add. pose proof (pow2_pos (ulp_exp r)). field. split; lra.
Qed.

End Binary64.
Export Binary64.

(* ================================================================== *)
(** ** The Python operations the script calls *)

Module Py.

(** The exceptions the arithmetic of the script can raise. *)
Inductive exn : Set :=
  | ValueError         (* math.log2 of a non-positive integer: math domain error *)
  | OverflowError      (* integer too large for a float *)
  | ZeroDivisionError.

Inductive result (A : Type) : Type :=
  | Ok (a : A)
  | Raise (e : exn).
Arguments Ok {A} a.
Arguments Raise {A} e.

Definition bind {A B : Type} (m : result A) (k : A -> result B) : result B :=
  match m with
  | Ok a => k a
  | Raise e => Raise e
  end.

(** A rounded value is delivered when it is finite; otherwise the operation
    raises [OverflowError]. *)
Definition finite_or_overflow (v : float) : result float :=
  if overflows v then Raise OverflowError else Ok v.

(** [a / b] on integers: true division, the correctly rounded quotient. *)
Definition int_truediv (a b : Z) : result float :=
  if b =? 0 then Raise ZeroDivisionError
  else finite_or_overflow (round (inject_Z a / inject_Z b)).

(** Conversion of an integer to a float, as [math.log2] first attempts it. *)
Definition int_to_float (n : Z) : result float :=
  finite_or_overflow (round (inject_Z n)).

(** Fraction in [[1/2, 1)] and exponent of a positive integer, the fraction
    rounded to 53 bits; used when the integer exceeds the float range. *)
Definition int_frexp (n : Z) : float * Z :=
  let e := Z.log2 n + 1 in
  let x := round (inject_Z n / pow2 e) in
  if Qeq_bool x 1 then ((1 # 2)%Q, e + 1) else (x, e).

(** Number of fractional bits of the logarithm that are computed before the
    final rounding; no binary64 rounding boundary of a logarithm of a
    binary64 argument needs more than 107. *)
Definition log2_bits : Z := 110.

(** Working precision of the digit recurrence, in bits. *)
Definition log2_work_bits : Z := 256.

(** Digit recurrence for the binary logarithm of a rational [y] in [[1, 2)],
    enclosed between [lo / 2^256] and [hi / 2^256]: squaring doubles the
    logarithm, and the square reaches 2 exactly when the next fractional bit
    is 1.  [acc] collects the integer part and the bits.  The recurrence
    gives up when the enclosure of a square does not decide its bit. *)
Fixpoint log2_digits (n : nat) (lo hi acc : Z) : option Z :=
  match n with
  | O => Some acc
  | S n' =>
      let w := 2 ^ log2_work_bits in
      let lo2 := (lo * lo) / w in
      let hi2 := (hi * hi + w - 1) / w in
      if 2 * w <=? lo2 then log2_digits n' (lo2 / 2) ((hi2 + 1) / 2) (2 * acc + 1)
      else if hi2 <? 2 * w then log2_digits n' lo2 hi2 (2 * acc)
      else None
  end.

(** [floor (2^log2_bits * log2 x)], for [0 < x]: by the digit recurrence on
    [x / 2^ilog2 x], and from the defining power of [x] should the
    recurrence give up. *)
Definition log2_scaled (x : Q) : Z :=
  let k := ilog2 x in
  let y := (x / pow2 k * pow2 log2_work_bits)%Q in
  match log2_digits (Z.to_nat log2_bits) (Qfloor y) (Qceiling y) k with
  | Some t => t
  | None => ilog2 (x ^ (2 ^ log2_bits))%Q
  end.

(** The exponent [k] when [x] is exactly [2^k]. *)
Definition exact_log2 (x : Q) : option Z :=
  let k := ilog2 x in if Qeq_bool x (pow2 k) then Some k else None.

(** Midpoint of the interval [[t, t+1] / 2^log2_bits]. *)
Definition truncation_midpoint (t : Z) : Q :=
  (inject_Z (2 * t + 1) / pow2 (log2_bits + 1))%Q.

(** Base-2 logarithm of a float [1 <= x], correctly rounded: exact on the
    powers of two; elsewhere the logarithm is irrational and is rounded from
    the midpoint of its [log2_bits]-bit truncation interval. *)
Definition log2_ge1 (x : float) : float :=
  match exact_log2 x with
  | Some k => round (inject_Z k)
  | None => round (truncation_midpoint (log2_scaled x))
  end.

(** The C library's [log2] on a positive float, taken to be correctly
    rounded; below 1 by the symmetry of the rounding. *)
Definition libm_log2 (x : float) : float :=
  if Qle_bool 1 x then log2_ge1 x else (- log2_ge1 (/ x))%Q.

(** [math.log2] on an integer.  A non-positive argument is a domain error.
    An argument too large for a float is split into fraction and exponent;
    the exponent of any integer that fits in memory is below [2^53], so its
    product with [log2 2.0 = 1.0] is exact and only the sum is rounded. *)
Definition math_log2 (n : Z) : result float :=
  if n <=? 0 then Raise ValueError
  else match int_to_float n with
       | Ok x => Ok (libm_log2 x)
       | Raise _ =>
           let (x, e) := int_frexp n in
           Ok (round (libm_log2 x + libm_log2 2 * inject_Z e)%Q)
       end.

(** [math.ceil] on a float returns an integer. *)
Definition math_ceil (x : float) : Z := ceil x.

End Py.
Export Py.

Notation "x <- m ;; k" := (bind m (fun x => k))
  (at level 61, m at next level, right associativity).

(* ================================================================== *)
(** ** scripts/feecalc.py

    The two data classes and the three methods of the fee model.  The table
    printer and the sample driver of the script only display what these
    return. *)

Definition COMPUTATION_UNIT_PER_CYCLE_BUCKET : Z := 500.
Definition COMPUTATION_UNIT_PER_CREATED_NOTE : Z := 50.
Definition COMPUTATION_UNIT_PER_CONSUMED_NOTE : Z := 30.
Definition COMPUTATION_UNIT_PER_KILO_BYTE : Z := 15.

Record ComputationSummary : Set := mkComputationSummary {
  cycle_units : Z;
  notes_consumed_units : Z;
  notes_created_units : Z;
  data_units : Z
}.

(** Every field of the two data classes defaults to 0. *)
Definition ComputationSummary_default : ComputationSummary :=
  mkComputationSummary 0 0 0 0.

Definition total_computation_units (self : ComputationSummary) : Z :=
  cycle_units self
  + notes_consumed_units self
  + notes_created_units self
  + data_units self.

Record TransactionMetrics : Set := mkTransactionMetrics {
  num_cycles : Z;
  num_notes_consumed : Z;
  num_notes_created : Z;
  created_public_notes_byte_size : Z;
  public_account_delta_byte_size : Z
}.

Definition TransactionMetrics_default : TransactionMetrics :=
  mkTransactionMetrics 0 0 0 0 0.

Definition cycle_bucket (self : TransactionMetrics) : result Z :=
  x <- math_log2 (num_cycles self) ;;
  Ok (math_ceil x).

Definition kilo_bytes (self : TransactionMetrics) : result Z :=
  x <- int_truediv
         (created_public_notes_byte_size self + public_account_delta_byte_size self)
         1000 ;;
  Ok (math_ceil x).

Definition calculate_computation_units (self : TransactionMetrics)
  : result ComputationSummary :=
  cycle_bucket <- cycle_bucket self ;;
  kilo_bytes <- kilo_bytes self ;;
  Ok (mkComputationSummary
        (cycle_bucket * COMPUTATION_UNIT_PER_CYCLE_BUCKET)
        (num_notes_consumed self * COMPUTATION_UNIT_PER_CONSUMED_NOTE)
        (num_notes_created self * COMPUTATION_UNIT_PER_CREATED_NOTE)
        (kilo_bytes * COMPUTATION_UNIT_PER_KILO_BYTE)).


(* ================================================================== *)
(** ** Facts on rational powers *)

Module PowerFacts.
Local Open Scope Q_scope.

Lemma Qpower_succ x p : x ^ Zpos (Pos.succ p) == x ^ Zpos p * x.
Proof.
  rewrite Pos2Z.inj_succ, <- Z.add_1_r, Qpower_plus' by lia.
  rewrite Qpower_1_r. reflexivity.
Qed.

Lemma Qpower_pos_le x y p : 0 <= x -> x <= y -> x ^ Zpos p <= y ^ Zpos p.
Proof.
  intros Hx Hxy. induction p as [|p IH] using Pos.peano_ind.
  - rewrite !Qpower_1_r. exact Hxy.
  - rewrite !Qpower_succ.
    pose proof (Qpower_0_le x (Zpos p) Hx) as H0.
    apply Qmult_le_compat_nonneg; split; assumption.
Qed.

Lemma Qpower_le x y n : 0 <= x -> x <= y -> (0 <= n)%Z -> x ^ n <= y ^ n.
Proof.
  intros Hx Hxy Hn. destruct n as [|p|p]; [apply Qle_refl | | lia].
  apply Qpower_pos_le; assumption.
Qed.

Lemma Qpower_pos_lt x y p : 0 <= x -> x < y -> x ^ Zpos p < y ^ Zpos p.
Proof.
  intros Hx Hxy. induction p as [|p IH] using Pos.peano_ind.
  - rewrite !Qpower_1_r. exact Hxy.
  - rewrite !Qpower_succ.
    pose proof (Qpower_0_le x (Zpos p) Hx) as H0.
    apply Qmult_lt_compat_nonneg; split; assumption.
Qed.

Lemma Qpower_lt x y n : 0 <= x -> x < y -> (0 < n)%Z -> x ^ n < y ^ n.
Proof.
  intros Hx Hxy Hn. destruct n as [|p|p]; [lia | | lia].
  apply Qpower_pos_lt; assumption.
Qed.

(** Bernoulli's inequality. *)
Lemma bernoulli_pos h p : 0 <= h -> 1 + inject_Z (Zpos p) * h <= (1 + h) ^ Zpos p.
Proof.
  intros Hh. induction p as [|p IH] using Pos.peano_ind.
  - rewrite Qpower_1_r. change (inject_Z 1) with 1. lra.
  - rewrite Qpower_succ, Pos2Z.inj_succ, <- Z.add_1_r, inject_Z_plus.
    change (inject_Z 1) with 1.
    assert (Hp : 0 <= inject_Z (Zpos p)) by (apply (inject_Z_le 0); lia).
    set (c := inject_Z (Zpos p)) in *. set (w := (1 + h) ^ Zpos p) in *.
    clearbody c w. nra.
Qed.

Lemma bernoulli h n : 0 <= h -> (0 < n)%Z -> 1 + inject_Z n * h <= (1 + h) ^ n.
Proof.
  intros Hh Hn. destruct n as [|p|p]; [lia | | lia]. apply bernoulli_pos, Hh.
Qed.

Lemma pow2_pow k n : pow2 k ^ n == pow2 (k * n).
Proof. unfold pow2. symmetry. apply Qpower_mult. Qed.

End PowerFacts.
Export PowerFacts.

(* ================================================================== *)
(** ** The rounded logarithm *)

Module Log2Facts.
Local Open Scope Q_scope.

Definition scale : Z := 2 ^ log2_bits.

Lemma scale_pos : (0 < scale)%Z.
Proof. reflexivity. Qed.

Lemma scale_split : scale = (2 ^ 48 * 2 ^ 62)%Z.
Proof. reflexivity. Qed.

(** *** The digit recurrence computes the floor of the scaled logarithm *)

Definition work : Z := 2 ^ log2_work_bits.

Lemma work_pos : (0 < work)%Z.
Proof. reflexivity. Qed.

Lemma work_Q_pos : 0 < inject_Z work.
Proof. reflexivity. Qed.

Lemma floor_div_scaled a : inject_Z (a / work) * inject_Z work <= inject_Z a.
Proof.
  rewrite <- inject_Z_mult. apply inject_Z_le.
  pose proof (Z.mul_div_le a work work_pos). lia.
Qed.

Lemma ceil_div_scaled a :
  inject_Z a <= inject_Z ((a + work - 1) / work) * inject_Z work.
Proof.
  rewrite <- inject_Z_mult. apply inject_Z_le.
  pose proof (Z.mul_succ_div_gt (a + work - 1) work work_pos). lia.
Qed.

Lemma half_floor a : inject_Z (a / 2) * 2 <= inject_Z a.
Proof.
  change 2 with (inject_Z 2). rewrite <- inject_Z_mult. apply inject_Z_le.
  pose proof (Z.mul_div_le a 2 ltac:(lia)). lia.
Qed.

Lemma half_ceil a : inject_Z a <= inject_Z ((a + 1) / 2) * 2.
Proof.
  change 2 with (inject_Z 2). rewrite <- inject_Z_mult. apply inject_Z_le.
  pose proof (Z.mul_succ_div_gt (a + 1) 2 ltac:(lia)). lia.
Qed.

Lemma square_enclosure lo hi y :
  (0 <= lo)%Z -> inject_Z lo <= y * inject_Z work -> y * inject_Z work <= inject_Z hi ->
  inject_Z (lo * lo / work) <= y * y * inject_Z work /\
  y * y * inject_Z work <= inject_Z ((hi * hi + work - 1) / work).
Proof.
  intros H0 Hlo Hhi. pose proof work_Q_pos as Hw.
  pose proof (floor_div_scaled (lo * lo)) as Hf.
  pose proof (ceil_div_scaled (hi * hi)) as Hc.
  rewrite inject_Z_mult in Hf, Hc.
  apply (inject_Z_le 0) in H0. change (inject_Z 0) with 0 in H0.
  set (w := inject_Z work) in *. set (l := inject_Z lo) in *.
  set (h := inject_Z hi) in *.
  set (l2 := inject_Z (lo * lo / work)) in *.
  set (h2 := inject_Z ((hi * hi + work - 1) / work)) in *.
  clearbody w l h l2 h2.
  assert (Hll : l * l <= (y * w) * (y * w)) by nra.
  assert (Hhh : (y * w) * (y * w) <= h * h) by nra.
  split; apply (Qmult_le_r _ _ w Hw); nra.
Qed.

Lemma pow_two_succ n : (2 ^ Z.of_nat (S n) = 2 * 2 ^ Z.of_nat n)%Z.
Proof. rewrite Nat2Z.inj_succ, Z.pow_succ_r by lia. reflexivity. Qed.

Lemma log2_digits_sound n : forall lo hi acc y t,
  1 <= y -> y < 2 -> (0 <= lo)%Z ->
  inject_Z lo <= y * inject_Z work -> y * inject_Z work <= inject_Z hi ->
  log2_digits n lo hi acc = Some t ->
  exists y', 1 <= y' /\ y' < 2 /\
    y ^ (2 ^ Z.of_nat n) == y' * pow2 (t - acc * 2 ^ Z.of_nat n).
Proof.
  induction n as [|n IH]; intros lo hi acc y t Hy1 Hy2 H0 Hlo Hhi E.
  - simpl in E. injection E as <-. exists y. split; [exact Hy1|]. split; [exact Hy2|].
    change (2 ^ Z.of_nat 0)%Z with 1%Z.
    replace (acc - acc * 1)%Z with 0%Z by lia.
    rewrite Qpower_1_r, pow2_0. ring.
  - pose proof work_Q_pos as Hw.
    destruct (square_enclosure lo hi y H0 Hlo Hhi) as [Hl2 Hh2].
    cbn [log2_digits] in E. fold work in E.
    set (lo2 := (lo * lo / work)%Z) in *.
    set (hi2 := ((hi * hi + work - 1) / work)%Z) in *.
    assert (Hlo2 : (0 <= lo2)%Z)
      by (apply Z.div_pos; [apply Z.mul_nonneg_nonneg; lia | exact work_pos]).
    assert (Epow : forall z, z ^ (2 ^ Z.of_nat (S n)) == (z * z) ^ (2 ^ Z.of_nat n)).
    { intros z. rewrite pow_two_succ, Qpower_mult.
      change (z ^ 2) with (z * z). reflexivity. }
    destruct (Z.leb_spec (2 * work) lo2) as [Hbit | Hbit].
    + (* the square is at least 2: the bit is 1 *)
      assert (Hb : 2 * inject_Z work <= inject_Z lo2).
      { change 2 with (inject_Z 2). rewrite <- inject_Z_mult. apply inject_Z_le, Hbit. }
      pose proof (half_floor lo2) as Hhf. pose proof (half_ceil hi2) as Hhc.
      destruct (IH (lo2 / 2)%Z ((hi2 + 1) / 2)%Z (2 * acc + 1)%Z (y * y * (1 # 2)) t)
        as (y' & H1 & H2 & Ey); try exact E.
      * assert (2 * inject_Z work <= y * y * inject_Z work) by lra.
        assert (2 <= y * y) by (apply (Qmult_le_r _ _ _ Hw); lra). lra.
      * assert (y * y < 4) by nra. lra.
      * apply Z.div_pos; lia.
      * lra.
      * lra.
      * exists y'. split; [exact H1|]. split; [exact H2|].
        rewrite Epow.
        setoid_replace (y * y) with (2 * (y * y * (1 # 2))) by ring.
        rewrite Qmult_power, Ey.
        change (2 ^ 2 ^ Z.of_nat n) with (pow2 (2 ^ Z.of_nat n)).
        rewrite (Qmult_comm y'), Qmult_assoc, <- pow2_add, Qmult_comm.
        rewrite pow_two_succ.
        replace (2 ^ Z.of_nat n + (t - (2 * acc + 1) * 2 ^ Z.of_nat n))%Z
          with (t - acc * (2 * 2 ^ Z.of_nat n))%Z by ring.
        reflexivity.
    + destruct (Z.ltb_spec hi2 (2 * work)) as [Hbit' | Hbit']; [|discriminate].
      (* the square is below 2: the bit is 0 *)
      assert (Hb : inject_Z hi2 < 2 * inject_Z work).
      { change 2 with (inject_Z 2). rewrite <- inject_Z_mult. apply inject_Z_lt, Hbit'. }
      destruct (IH lo2 hi2 (2 * acc)%Z (y * y) t)
        as (y' & H1 & H2 & Ey); try exact E.
      * nra.
      * assert (y * y * inject_Z work < 2 * inject_Z work) by lra.
        apply (Qmult_lt_r _ _ _ Hw). lra.
      * exact Hlo2.
      * exact Hl2.
      * exact Hh2.
      * exists y'. split; [exact H1|]. split; [exact H2|].
        rewrite Epow, Ey, pow_two_succ.
        replace (t - 2 * acc * 2 ^ Z.of_nat n)%Z
          with (t - acc * (2 * 2 ^ Z.of_nat n))%Z by ring.
        reflexivity.
Qed.

(** The scaled logarithm is the binary logarithm of the [2^log2_bits]-th
    power, whichever way it was computed. *)
Lemma log2_scaled_eq x : 0 < x -> log2_scaled x = ilog2 (x ^ scale).
Proof.
  intros Hx. unfold log2_scaled. fold scale.
  set (k := ilog2 x). set (y := x / pow2 k).
  destruct (log2_digits _ _ _ k) as [t|] eqn:E; [|reflexivity].
  destruct (ilog2_spec x Hx) as [Hk1 Hk2]. fold k in Hk1, Hk2.
  pose proof (pow2_pos k) as Hpk. rewrite pow2_succ in Hk2.
  assert (Ey : y * pow2 k == x) by (unfold y; field; lra).
  assert (Hy1 : 1 <= y) by (apply Qle_shift_div_l; lra).
  assert (Hy2 : y < 2) by (apply Qlt_shift_div_r; lra).
  assert (Ew : pow2 log2_work_bits == inject_Z work) by (apply pow2_Z; discriminate).
  assert (A0 : (0 <= Qfloor (y * pow2 log2_work_bits))%Z).
  { apply (Qfloor_resp_le 0). apply Qmult_le_0_compat; [lra|].
    apply Qlt_le_weak, pow2_pos. }
  assert (A1 : inject_Z (Qfloor (y * pow2 log2_work_bits)) <= y * inject_Z work)
    by (rewrite <- Ew; apply Qfloor_le).
  assert (A2 : y * inject_Z work <= inject_Z (Qceiling (y * pow2 log2_work_bits)))
    by (rewrite <- Ew; apply Qle_ceiling).
  destruct (log2_digits_sound _ _ _ _ y t Hy1 Hy2 A0 A1 A2 E) as (y' & H1 & H2 & Ep).
  symmetry. change (Z.of_nat (Z.to_nat log2_bits)) with log2_bits in Ep.
  fold scale in Ep.
  assert (Exs : x ^ scale == y' * pow2 t).
  { rewrite <- Ey, Qmult_power, Ep, pow2_pow, <- Qmult_assoc, <- pow2_add.
    replace (t - k * scale + k * scale)%Z with t by ring. reflexivity. }
  pose proof (pow2_pos t) as Ht.
  apply ilog2_unique; rewrite Exs.
  - rewrite <- (Qmult_1_l (pow2 t)) at 1. apply Qmult_le_compat_r; lra.
  - rewrite pow2_succ. apply Qmult_lt_compat_r; lra.
Qed.

Lemma log2_scaled_spec x : 1 <= x ->
  pow2 (log2_scaled x) <= x ^ scale /\ x ^ scale < pow2 (log2_scaled x + 1).
Proof.
  intros Hx. rewrite log2_scaled_eq by lra.
  apply ilog2_spec, Qpower_0_lt. lra.
Qed.

Lemma log2_scaled_mono x y : 1 <= x -> x <= y ->
  (log2_scaled x <= log2_scaled y)%Z.
Proof.
  intros Hx Hxy. rewrite !log2_scaled_eq by lra.
  apply ilog2_mono; [apply Qpower_0_lt; lra|].
  apply Qpower_le; [lra | exact Hxy | pose proof scale_pos; lia].
Qed.

Lemma log2_scaled_ge x k : pow2 k <= x -> (k * scale <= log2_scaled x)%Z.
Proof.
  intros H. pose proof (pow2_pos k).
  rewrite log2_scaled_eq by lra. apply ilog2_ge.
  rewrite <- pow2_pow.
  apply Qpower_le; [lra | exact H | pose proof scale_pos; lia].
Qed.

Lemma log2_scaled_lt x k : 0 < x -> x < pow2 k ->
  (log2_scaled x < k * scale)%Z.
Proof.
  intros Hx H. rewrite log2_scaled_eq by exact Hx.
  apply ilog2_lt; [apply Qpower_0_lt, Hx|].
  rewrite <- pow2_pow.
  apply Qpower_lt; [lra | exact H | exact scale_pos].
Qed.

(** A float at relative distance at least [2^-48] above [2^k] has a scaled
    logarithm at least [2^-48] above [k]. *)
Lemma log2_scaled_ge_frac x k : pow2 k * (1 + pow2 (-48)) <= x ->
  (k * scale + 2 ^ 62 <= log2_scaled x)%Z.
Proof.
  intros H.
  pose proof (pow2_pos k) as Hk. pose proof (pow2_pos (-48)) as Hh.
  rewrite log2_scaled_eq by nra. apply ilog2_ge.
  apply Qle_trans with ((pow2 k * (1 + pow2 (-48))) ^ scale).
  2:{ apply Qpower_le; [nra | exact H | pose proof scale_pos; lia]. }
  rewrite Qmult_power, pow2_pow, pow2_add.
  apply Qmult_le_l; [apply pow2_pos|].
  rewrite scale_split, Qpower_mult.
  apply Qle_trans with (2 ^ (2 ^ 62)); [apply Qle_refl|].
  apply Qpower_le; [lra | | lia].
  apply Qle_trans with (1 + inject_Z (2 ^ 48) * pow2 (-48)).
  - assert (E : inject_Z (2 ^ 48) * pow2 (-48) == 1).
    { rewrite <- pow2_Z, <- pow2_add by lia. reflexivity. }
    rewrite E. apply Qle_refl.
  - apply bernoulli; [lra | lia].
Qed.

(** *** The midpoint of the truncation interval *)

Lemma midpoint_scaled t :
  truncation_midpoint t * inject_Z (2 * scale) == inject_Z (2 * t + 1).
Proof.
  unfold truncation_midpoint.
  assert (E : pow2 (log2_bits + 1) == inject_Z (2 * scale)).
  { rewrite pow2_Z by (unfold log2_bits; lia). reflexivity. }
  rewrite E. field. intros H.
  assert (0 < inject_Z (2 * scale)) by (apply (inject_Z_lt 0); reflexivity).
  lra.
Qed.

Lemma two_scale_pos : 0 < inject_Z (2 * scale).
Proof. apply (inject_Z_lt 0). reflexivity. Qed.

Lemma midpoint_mono t u : (t <= u)%Z ->
  truncation_midpoint t <= truncation_midpoint u.
Proof.
  intros H. apply (Qmult_le_r _ _ _ two_scale_pos).
  rewrite !midpoint_scaled. apply inject_Z_le. lia.
Qed.

Lemma midpoint_gt k t : (k * scale <= t)%Z -> inject_Z k < truncation_midpoint t.
Proof.
  intros H. apply (Qmult_lt_r _ _ _ two_scale_pos).
  rewrite midpoint_scaled, <- inject_Z_mult. apply inject_Z_lt. lia.
Qed.

Lemma midpoint_lt k t : (t < k * scale)%Z -> truncation_midpoint t < inject_Z k.
Proof.
  intros H. apply (Qmult_lt_r _ _ _ two_scale_pos).
  rewrite midpoint_scaled, <- inject_Z_mult. apply inject_Z_lt. lia.
Qed.

Lemma midpoint_gt_frac k t : (k * scale + 2 ^ 62 <= t)%Z ->
  inject_Z k + pow2 (-48) < truncation_midpoint t.
Proof.
  intros H. apply (Qmult_lt_r _ _ _ two_scale_pos).
  rewrite midpoint_scaled.
  assert (E : pow2 (-48) * inject_Z (2 * scale) == inject_Z (2 ^ 63)).
  { rewrite <- (pow2_Z 63) by lia.
    replace (2 * scale)%Z with (2 ^ 111)%Z by reflexivity.
    rewrite <- (pow2_Z 111), <- pow2_add by lia. reflexivity. }
  rewrite Qmult_plus_distr_l, E, <- inject_Z_mult, <- inject_Z_plus.
  apply inject_Z_lt. lia.
Qed.

End Log2Facts.
Export Log2Facts.

Module Log2Round.
Local Open Scope Q_scope.

Lemma exact_log2_some x k : exact_log2 x = Some k -> x == pow2 k.
Proof.
  unfold exact_log2. destruct (Qeq_bool x (pow2 (ilog2 x))) eqn:E; [|discriminate].
  intros H. injection H as <-. apply Qeq_bool_iff, E.
Qed.

Lemma exact_log2_pow2 x k : x == pow2 k -> exact_log2 x = Some k.
Proof.
  intros E. unfold exact_log2.
  assert (Hk : ilog2 x = k).
  { apply ilog2_unique; [lra | rewrite E; apply pow2_lt; lia]. }
  rewrite Hk. apply Qeq_bool_iff in E. rewrite E. reflexivity.
Qed.

Lemma exact_log2_none x k : exact_log2 x = None -> ~ x == pow2 k.
Proof. intros H E. rewrite (exact_log2_pow2 x k E) in H. discriminate. Qed.

Lemma log2_ge1_mono x y : 1 <= x -> x <= y -> log2_ge1 x <= log2_ge1 y.
Proof.
  intros Hx Hxy. unfold log2_ge1.
  destruct (exact_log2 x) as [j|] eqn:Ex; destruct (exact_log2 y) as [j'|] eqn:Ey.
  - apply exact_log2_some in Ex, Ey.
    assert (Hj : (0 <= j)%Z) by (apply pow2_le_inv; rewrite pow2_0; lra).
    assert (Hjj : (j <= j')%Z) by (apply pow2_le_inv; lra).
    apply round_mono; [apply (inject_Z_le 0), Hj | apply inject_Z_le, Hjj].
  - apply exact_log2_some in Ex.
    assert (Hj : (0 <= j)%Z) by (apply pow2_le_inv; rewrite pow2_0; lra).
    apply round_mono; [apply (inject_Z_le 0), Hj|].
    apply Qlt_le_weak, midpoint_gt, log2_scaled_ge. lra.
  - apply exact_log2_some in Ey.
    pose proof (exact_log2_none x j' Ex) as Nx.
    assert (Hlt : x < pow2 j') by (apply Qlt_leneq; split; [lra | exact Nx]).
    apply round_mono.
    + apply Qlt_le_weak, Qle_lt_trans with (inject_Z 0); [apply Qle_refl|].
      apply midpoint_gt. rewrite Z.mul_0_l, <- (Z.mul_0_l scale).
      apply log2_scaled_ge. rewrite pow2_0. exact Hx.
    + apply Qlt_le_weak, midpoint_lt, log2_scaled_lt; lra.
  - apply round_mono.
    + apply Qlt_le_weak, Qle_lt_trans with (inject_Z 0); [apply Qle_refl|].
      apply midpoint_gt. rewrite Z.mul_0_l, <- (Z.mul_0_l scale).
      apply log2_scaled_ge. rewrite pow2_0. exact Hx.
    + apply midpoint_mono, log2_scaled_mono; assumption.
Qed.

Lemma log2_ge1_comp x y : 1 <= x -> x == y -> log2_ge1 x == log2_ge1 y.
Proof. intros Hx E. apply Qle_antisym; apply log2_ge1_mono; lra. Qed.

Lemma log2_ge1_pow2 x k : (0 <= k <= 2 ^ 53)%Z -> x == pow2 k ->
  log2_ge1 x == inject_Z k.
Proof.
  intros Hk E. unfold log2_ge1. rewrite (exact_log2_pow2 x k E).
  apply round_Z, Hk.
Qed.

Lemma log2_ge1_lower x k : (0 <= k <= 2 ^ 53)%Z -> pow2 k <= x ->
  inject_Z k <= log2_ge1 x.
Proof.
  intros Hk H. rewrite <- (log2_ge1_pow2 (pow2 k) k Hk) by reflexivity.
  apply log2_ge1_mono; [apply pow2_ge_1; lia | exact H].
Qed.

Lemma log2_ge1_upper x k : (0 <= k <= 2 ^ 53)%Z -> 1 <= x -> x <= pow2 k ->
  log2_ge1 x <= inject_Z k.
Proof.
  intros Hk Hx H. rewrite <- (log2_ge1_pow2 (pow2 k) k Hk) by reflexivity.
  apply log2_ge1_mono; assumption.
Qed.

Lemma log2_ge1_nonneg x : 1 <= x -> 0 <= log2_ge1 x.
Proof.
  intros Hx. apply (log2_ge1_lower x 0); [lia | rewrite pow2_0; exact Hx].
Qed.

(** Below [2^64] the unit in the last place of the logarithm is at most
    [2^-47]: a float at relative distance [2^-48] or more above [2^k] has a
    rounded logarithm strictly above [k]. *)
Lemma log2_ge1_strict x k : (0 <= k)%Z -> x < pow2 64 ->
  pow2 k * (1 + pow2 (-48)) <= x -> inject_Z k < log2_ge1 x.
Proof.
  intros Hk H64 H.
  pose proof (pow2_pos k) as Hpk. pose proof (pow2_pos (-48)) as Hh.
  assert (Hkx : pow2 k < x) by nra.
  assert (Hx : 1 <= x) by (pose proof (pow2_ge_1 k Hk); lra).
  assert (Hk64 : (k < 64)%Z) by (apply pow2_lt_inv; lra).
  unfold log2_ge1. destruct (exact_log2 x) as [j|] eqn:Ex.
  - apply exact_log2_some in Ex.
    assert (Hj : (k < j)%Z) by (apply pow2_lt_inv; lra).
    assert (Hj64 : (j < 64)%Z) by (apply pow2_lt_inv; lra).
    rewrite round_Z by lia. apply inject_Z_lt, Hj.
  - set (m := truncation_midpoint (log2_scaled x)).
    assert (Hm1 : inject_Z k + pow2 (-48) < m)
      by (apply midpoint_gt_frac, log2_scaled_ge_frac, H).
    assert (Hm2 : m < inject_Z 64)
      by (apply midpoint_lt, log2_scaled_lt; lra).
    assert (Hk0 : 0 <= inject_Z k) by (apply (inject_Z_le 0), Hk).
    assert (Hm0 : 0 < m) by lra.
    destruct (round_error m Hm0) as [He _].
    assert (Hu : (ulp_exp m - 1 <= -48)%Z).
    { assert (ilog2 m < 6)%Z by (apply ilog2_lt; [exact Hm0 | exact Hm2]).
      unfold ulp_exp. lia. }
    pose proof (pow2_le _ _ Hu). lra.
Qed.

End Log2Round.
Export Log2Round.

(* ================================================================== *)
(** ** The Python operations on the script's inputs *)

Module PyFacts.
Local Open Scope Q_scope.

Lemma overflows_false v : 0 <= v -> v < pow2 1024 -> overflows v = false.
Proof.
  intros H0 H. unfold overflows.
  destruct (Qle_bool (pow2 1024) (Qabs v)) eqn:E; [|reflexivity].
  apply Qle_bool_iff in E. rewrite Qabs_pos in E by exact H0. lra.
Qed.

Lemma overflows_true v : pow2 1024 <= v -> overflows v = true.
Proof.
  intros H. unfold overflows. apply Qle_bool_iff.
  apply Qle_trans with v; [exact H | apply Qle_Qabs].
Qed.

Lemma overflows_true_inv v : 0 <= v -> overflows v = true -> pow2 1024 <= v.
Proof.
  intros H0 H. unfold overflows in H. apply Qle_bool_iff in H.
  rewrite Qabs_pos in H by exact H0. exact H.
Qed.

Lemma overflows_false_inv v : 0 <= v -> overflows v = false -> v < pow2 1024.
Proof.
  intros H0 H. apply Qnot_le_lt. intros C.
  rewrite (overflows_true v C) in H. discriminate.
Qed.

Lemma ceil_unique v c : inject_Z (c - 1) < v -> v <= inject_Z c -> ceil v = c.
Proof.
  intros H1 H2. unfold ceil.
  pose proof (Qle_ceiling v) as H3. pose proof (Qceiling_lt v) as H4.
  assert (c - 1 < Qceiling v)%Z by (rewrite Zlt_Qlt; lra).
  assert (Qceiling v - 1 < c)%Z by (rewrite Zlt_Qlt; lra).
  lia.
Qed.

Lemma ceil_Z v c : v == inject_Z c -> ceil v = c.
Proof.
  intros E. apply ceil_unique; [|lra].
  rewrite E. apply inject_Z_lt. lia.
Qed.

Lemma ceil_mono v w : v <= w -> (ceil v <= ceil w)%Z.
Proof. apply Qceiling_resp_le. Qed.

Lemma ceil_ge v c : inject_Z c <= v -> (c <= ceil v)%Z.
Proof.
  intros H. unfold ceil. pose proof (Qle_ceiling v). rewrite Zle_Qle. lra.
Qed.

(** *** Conversion of an integer to a float *)

Lemma round_int_ge_1 n : (1 <= n)%Z -> 1 <= round (inject_Z n).
Proof. intros H. apply (round_ge_Z _ 1); [lia | apply inject_Z_le, H]. Qed.

Lemma int_to_float_small n : (0 <= n <= 2 ^ 53)%Z ->
  int_to_float n = Ok (round (inject_Z n)).
Proof.
  intros H. unfold int_to_float, finite_or_overflow.
  rewrite overflows_false; [reflexivity | | ].
  - rewrite round_Z by exact H. apply (inject_Z_le 0). lia.
  - rewrite round_Z by exact H.
    apply Qle_lt_trans with (inject_Z (2 ^ 53)); [apply inject_Z_le; lia|].
    rewrite <- pow2_Z by lia. apply pow2_lt. lia.
Qed.

Lemma libm_log2_ge1 x : 1 <= x -> libm_log2 x = log2_ge1 x.
Proof.
  intros H. unfold libm_log2. apply Qle_bool_iff in H. rewrite H. reflexivity.
Qed.

Lemma math_log2_nonpositive n : (n <= 0)%Z -> math_log2 n = Raise ValueError.
Proof.
  intros H. unfold math_log2. apply Z.leb_le in H. rewrite H. reflexivity.
Qed.

Lemma math_log2_small n : (1 <= n <= 2 ^ 53)%Z ->
  math_log2 n = Ok (log2_ge1 (round (inject_Z n))).
Proof.
  intros H. unfold math_log2.
  destruct (Z.leb_spec n 0) as [C | _]; [lia|].
  rewrite int_to_float_small by lia.
  rewrite libm_log2_ge1 by (apply round_int_ge_1; lia). reflexivity.
Qed.

(** The logarithm of an integer up to [2^53], seen on the integer itself. *)
Lemma log2_int_small n : (1 <= n <= 2 ^ 53)%Z ->
  log2_ge1 (round (inject_Z n)) == log2_ge1 (inject_Z n).
Proof.
  intros H. apply log2_ge1_comp; [apply round_int_ge_1; lia|].
  apply round_Z. lia.
Qed.

End PyFacts.
Export PyFacts.

(* ================================================================== *)
(** ** math.log2 on the two ranges of integers *)

Module Log2Int.
Local Open Scope Q_scope.

(** What [math_log2] delivers for an integer whose float [X] (rounded with
    unbounded exponent) is beyond the finite range: the rounded sum of the
    exponent and the logarithm of the fraction. *)
Definition log2_large (X : Q) : Q :=
  round (inject_Z (ilog2 X + 1) - log2_ge1 (pow2 (ilog2 X + 1) / X)).

Lemma ilog2_int n : (0 < n)%Z -> ilog2 (inject_Z n) = Z.log2 n.
Proof.
  intros Hn. destruct (Z.log2_spec n Hn) as [H1 H2].
  pose proof (Z.log2_nonneg n) as H0.
  apply ilog2_unique.
  - rewrite pow2_Z by lia. apply inject_Z_le, H1.
  - rewrite pow2_Z by lia. apply inject_Z_lt. rewrite Z.add_1_r. exact H2.
Qed.

Lemma round_binade r : 0 < r -> (-1074 <= ilog2 r)%Z ->
  pow2 (ilog2 r) <= round r /\ round r <= pow2 (ilog2 r + 1).
Proof.
  intros Hr He. destruct (ilog2_spec r Hr) as [H1 H2].
  rewrite round_pos_eq by exact Hr. split.
  - rewrite <- (Qmult_1_l (pow2 (ilog2 r))). change 1 with (inject_Z 1).
    apply round_pos_ge_grid; [unfold ulp_exp; lia|].
    change (inject_Z 1) with 1. lra.
  - rewrite <- (Qmult_1_l (pow2 (ilog2 r + 1))). change 1 with (inject_Z 1).
    apply round_pos_le_grid; [unfold ulp_exp; lia|].
    change (inject_Z 1) with 1. lra.
Qed.

Lemma libm_log2_two : libm_log2 2 == 1.
Proof. vm_compute. reflexivity. Qed.

Lemma inverse_fraction x e X : 0 < X -> x * pow2 e == X -> / x == pow2 e / X.
Proof.
  intros HX E. pose proof (pow2_pos e) as He.
  assert (Hx : 0 < x) by nra.
  rewrite <- E. field. split; lra.
Qed.

Lemma fraction_inverse_bounds X : 0 < X ->
  1 <= pow2 (ilog2 X + 1) / X /\ pow2 (ilog2 X + 1) / X <= pow2 1.
Proof.
  intros HX. destruct (ilog2_spec X HX) as [H1 H2].
  rewrite pow2_succ in *. rewrite pow2_1. split.
  - apply Qle_shift_div_l; lra.
  - apply Qle_shift_div_r; lra.
Qed.

Lemma fraction_log2_bounds X : 0 < X ->
  0 <= log2_ge1 (pow2 (ilog2 X + 1) / X) /\
  log2_ge1 (pow2 (ilog2 X + 1) / X) <= 1.
Proof.
  intros HX. destruct (fraction_inverse_bounds X HX) as [H1 H2]. split.
  - apply log2_ge1_nonneg, H1.
  - apply (log2_ge1_upper _ 1); [lia | exact H1 | exact H2].
Qed.

(** Fraction and exponent of an integer are those of its rounded value. *)
Lemma int_frexp_spec n : (0 < n)%Z ->
  let X := round (inject_Z n) in
  exists x e, int_frexp n = (x, e) /\ e = (ilog2 X + 1)%Z /\
              x * pow2 e == X /\ 0 < x /\ x < 1.
Proof.
  intros Hn X.
  assert (Hq : 0 < inject_Z n) by (apply (inject_Z_lt 0), Hn).
  pose proof (ilog2_int n Hn) as El. pose proof (Z.log2_nonneg n) as Hl.
  assert (HX : pow2 (Z.log2 n) <= X /\ X <= pow2 (Z.log2 n + 1)).
  { rewrite <- El. apply round_binade; [exact Hq | lia]. }
  destruct HX as [HX1 HX2].
  set (bl := (Z.log2 n + 1)%Z) in *.
  assert (Ex : round (inject_Z n / pow2 bl) == X * pow2 (- bl)).
  { unfold X. rewrite <- round_scale by (try exact Hq; lia).
    apply round_comp.
    - apply Qlt_le_weak, Qlt_shift_div_l; [apply pow2_pos | lra].
    - rewrite pow2_inv. reflexivity. }
  pose proof (pow2_pos bl) as Hbl. pose proof (pow2_pos (Z.log2 n)) as Hl0.
  pose proof (pow2_mul_inv bl) as Einv. pose proof (pow2_pos (- bl)) as Hnbl.
  unfold int_frexp. fold bl.
  destruct (Qeq_bool (round (inject_Z n / pow2 bl)) 1) eqn:Eb.
  - apply Qeq_bool_iff in Eb. rewrite Ex in Eb.
    assert (EX : X == pow2 bl) by nra.
    exists (1 # 2), (bl + 1)%Z. split; [reflexivity|].
    assert (Ei : ilog2 X = bl).
    { apply ilog2_unique; [lra | rewrite EX; apply pow2_lt; lia]. }
    rewrite Ei. split; [reflexivity|]. split; [|split; reflexivity].
    rewrite pow2_succ, EX. ring.
  - apply Qeq_bool_neq in Eb. rewrite Ex in Eb.
    assert (NX : X < pow2 bl).
    { apply Qlt_leneq. split; [exact HX2|]. intros C. apply Eb. rewrite C.
      exact Einv. }
    exists (round (inject_Z n / pow2 bl)), bl. split; [reflexivity|].
    assert (Ei : ilog2 X = (bl - 1)%Z).
    { apply ilog2_unique.
      - unfold bl. replace (Z.log2 n + 1 - 1)%Z with (Z.log2 n) by lia. exact HX1.
      - replace (bl - 1 + 1)%Z with bl by lia. exact NX. }
    rewrite Ei. split; [lia|]. rewrite Ex. split; [|split].
    + rewrite <- Qmult_assoc, (Qmult_comm (pow2 (- bl))), Einv. ring.
    + apply Qmult_lt_0_compat; lra.
    + rewrite <- Einv. apply Qmult_lt_compat_r; lra.
Qed.

Lemma math_log2_finite n : (0 < n)%Z ->
  overflows (round (inject_Z n)) = false ->
  math_log2 n = Ok (log2_ge1 (round (inject_Z n))).
Proof.
  intros Hn Hov. unfold math_log2.
  destruct (Z.leb_spec n 0) as [C | _]; [lia|].
  unfold int_to_float, finite_or_overflow. rewrite Hov.
  rewrite libm_log2_ge1 by (apply round_int_ge_1; lia). reflexivity.
Qed.

Lemma math_log2_large n : (0 < n)%Z ->
  overflows (round (inject_Z n)) = true ->
  exists v, math_log2 n = Ok v /\ v == log2_large (round (inject_Z n)).
Proof.
  intros Hn Hov. unfold math_log2.
  destruct (Z.leb_spec n 0) as [C | _]; [lia|].
  unfold int_to_float, finite_or_overflow. rewrite Hov.
  destruct (int_frexp_spec n Hn) as (x & e & Ef & Ee & Ex & Hx0 & Hx1).
  rewrite Ef. eexists. split; [reflexivity|].
  set (X := round (inject_Z n)) in *.
  assert (HX : 1 <= X) by (apply round_int_ge_1; lia).
  assert (Hb : Qle_bool 1 x = false).
  { destruct (Qle_bool 1 x) eqn:E; [|reflexivity].
    apply Qle_bool_iff in E. lra. }
  unfold libm_log2 at 1. rewrite Hb.
  unfold log2_large. rewrite <- Ee.
  destruct (fraction_log2_bounds X ltac:(lra)) as [HL0 HL1]. rewrite <- Ee in *.
  destruct (fraction_inverse_bounds X ltac:(lra)) as [HF _]. rewrite <- Ee in HF.
  assert (EL : log2_ge1 (/ x) == log2_ge1 (pow2 e / X)).
  { pose proof (inverse_fraction x e X ltac:(lra) Ex) as Ei.
    apply log2_ge1_comp; [rewrite Ei; exact HF | exact Ei]. }
  assert (He : 1 <= inject_Z e).
  { apply (inject_Z_le 1). pose proof (ilog2_ge X 0). rewrite pow2_0 in *.
    specialize (H HX). lia. }
  pose proof libm_log2_two as E2.
  apply round_comp; [|rewrite EL, E2; ring].
  rewrite EL, E2. lra.
Qed.

Lemma log2_large_mono X Y : 1 <= X -> X <= Y -> log2_large X <= log2_large Y.
Proof.
  intros HX HXY. unfold log2_large.
  destruct (fraction_log2_bounds X ltac:(lra)) as [HL0 HL1].
  destruct (fraction_log2_bounds Y ltac:(lra)) as [HM0 HM1].
  destruct (fraction_inverse_bounds Y ltac:(lra)) as [HF _].
  pose proof (ilog2_mono X Y ltac:(lra) HXY) as He.
  assert (He0 : 1 <= inject_Z (ilog2 X + 1)).
  { apply (inject_Z_le 1). pose proof (ilog2_ge X 0). rewrite pow2_0 in *.
    specialize (H HX). lia. }
  apply round_mono; [lra|].
  destruct (Z.eq_dec (ilog2 X) (ilog2 Y)) as [E | N].
  - rewrite E in *.
    assert (log2_ge1 (pow2 (ilog2 Y + 1) / Y) <= log2_ge1 (pow2 (ilog2 Y + 1) / X)).
    { apply log2_ge1_mono; [exact HF|].
      pose proof (pow2_pos (ilog2 Y + 1)).
      apply Qle_shift_div_l; [lra|].
      unfold Qdiv. rewrite <- Qmult_assoc.
      rewrite <- (Qmult_1_r (pow2 (ilog2 Y + 1))) at 2.
      apply Qmult_le_l; [lra|].
      rewrite Qmult_comm. apply Qle_shift_div_r; lra. }
    lra.
  - assert (Hlt : inject_Z (ilog2 X + 1) <= inject_Z (ilog2 Y + 1) - 1).
    { rewrite (inject_Z_plus (ilog2 Y)). change (inject_Z 1) with 1.
      setoid_replace (inject_Z (ilog2 Y) + 1 - 1) with (inject_Z (ilog2 Y)) by ring.
      apply inject_Z_le. lia. }
    lra.
Qed.

Lemma log2_large_ge X k : (1 <= k <= 2 ^ 53)%Z -> pow2 k <= X ->
  inject_Z k <= log2_large X.
Proof.
  intros Hk HX. pose proof (pow2_pos k) as Hp.
  destruct (fraction_log2_bounds X ltac:(lra)) as [HL0 HL1].
  pose proof (ilog2_ge X k HX) as He.
  unfold log2_large. apply round_ge_Z; [lia|].
  assert (inject_Z k + 1 <= inject_Z (ilog2 X + 1)).
  { apply Qle_trans with (inject_Z (k + 1)); [|apply inject_Z_le; lia].
    rewrite inject_Z_plus. apply Qle_refl. }
  lra.
Qed.

Lemma log2_large_pow2 X k : (0 <= k <= 2 ^ 53)%Z -> X == pow2 k ->
  log2_large X == inject_Z k.
Proof.
  intros Hk E. pose proof (pow2_pos k) as Hp.
  assert (Ei : ilog2 X = k).
  { apply ilog2_unique; [lra | rewrite E; apply pow2_lt; lia]. }
  unfold log2_large. rewrite Ei.
  assert (EL : log2_ge1 (pow2 (k + 1) / X) == 1).
  { apply (log2_ge1_pow2 _ 1); [lia|]. rewrite E, pow2_succ, pow2_1.
    field. lra. }
  apply Qeq_trans with (round (inject_Z k)); [|apply round_Z, Hk].
  apply round_comp.
  - rewrite EL, inject_Z_plus. change (inject_Z 1) with 1.
    assert (0 <= inject_Z k) by (apply (inject_Z_le 0); lia). lra.
  - rewrite EL, inject_Z_plus. change (inject_Z 1) with 1. ring.
Qed.

End Log2Int.
Export Log2Int.

(* ================================================================== *)
(** ** cycle_bucket *)

Lemma cycle_bucket_nonpositive tm :
  num_cycles tm <= 0 -> cycle_bucket tm = Raise ValueError.
Proof.
  intros H. unfold cycle_bucket. rewrite math_log2_nonpositive by exact H.
  reflexivity.
Qed.

Lemma cycle_bucket_small tm : 1 <= num_cycles tm <= 2 ^ 53 ->
  cycle_bucket tm = Ok (ceil (log2_ge1 (inject_Z (num_cycles tm)))).
Proof.
  intros H. unfold cycle_bucket. rewrite math_log2_small by exact H.
  simpl. unfold math_ceil, ceil. f_equal.
  apply Qceiling_comp, log2_int_small, H.
Qed.

Lemma ceil_log2_pow2 k : 0 <= k <= 2 ^ 53 ->
  ceil (log2_ge1 (inject_Z (2 ^ k))) = k.
Proof.
  intros H. apply ceil_Z, log2_ge1_pow2; [exact H|].
  symmetry. apply pow2_Z. lia.
Qed.

Lemma ceil_log2_between n k : 0 <= k <= 48 -> 2 ^ k < n < 2 ^ (k + 1) ->
  ceil (log2_ge1 (inject_Z n)) = k + 1.
Proof.
  intros Hk Hn. apply ceil_unique.
  - replace (k + 1 - 1) with k by lia.
    apply log2_ge1_strict; [lia | | ].
    + apply Qle_lt_trans with (inject_Z (2 ^ 49)).
      * apply inject_Z_le. assert (2 ^ (k + 1) <= 2 ^ 49)
          by (apply Z.pow_le_mono_r; lia). lia.
      * rewrite <- pow2_Z by lia. apply pow2_lt. lia.
    + apply Qle_trans with (inject_Z (2 ^ k + 1)).
      * rewrite inject_Z_plus, <- pow2_Z by lia.
        rewrite Qmult_plus_distr_r, Qmult_1_r, <- pow2_add.
        apply Qplus_le_r. rewrite <- pow2_0. apply pow2_le. lia.
      * apply inject_Z_le. lia.
  - apply log2_ge1_upper; [lia | apply (inject_Z_le 1); lia|].
    rewrite pow2_Z by lia. apply inject_Z_le. lia.
Qed.

Lemma ceil_log2_small n : 1 <= n <= 2 ^ 49 ->
  ceil (log2_ge1 (inject_Z n)) = Z.log2_up n.
Proof.
  intros Hn.
  pose proof (Z.log2_spec n ltac:(lia)) as [H1 H2].
  pose proof (Z.log2_nonneg n) as H0.
  remember (Z.log2 n) as k eqn:Ek. clear Ek.
  assert (Hk : k <= 49).
  { destruct (Z_le_gt_dec k 49) as [L | G]; [exact L | exfalso].
    assert (2 ^ 50 <= 2 ^ k) by (apply Z.pow_le_mono_r; lia). lia. }
  destruct (Z.eq_dec n (2 ^ k)) as [E | N].
  - subst n. rewrite Z.log2_up_pow2 by lia. apply ceil_log2_pow2. lia.
  - assert (Hk' : k <> 49) by (intros ->; lia).
    rewrite (Z.log2_up_unique n (k + 1)).
    + apply ceil_log2_between; [lia|]. rewrite Z.add_1_r. lia.
    + lia.
    + replace (Z.pred (k + 1)) with k by lia. rewrite Z.add_1_r. lia.
Qed.

(* ================================================================== *)
(** ** kilo_bytes *)

Section KiloBytes.
Local Open Scope Q_scope.

Lemma quotient_scaled s : inject_Z s / inject_Z 1000 * inject_Z 1000 == inject_Z s.
Proof. field. Qed.

(** The exact quotient lies at least one thousandth above the integer below
    its ceiling. *)
Lemma quotient_above_floor s :
  inject_Z (Qceiling (inject_Z s / inject_Z 1000) - 1) + (1 # 1000)
    <= inject_Z s / inject_Z 1000.
Proof.
  set (r := inject_Z s / inject_Z 1000). set (c := Qceiling r).
  pose proof (Qceiling_lt r) as H. fold c in H.
  pose proof (quotient_scaled s) as E. fold r in E.
  assert (Hz : ((c - 1) * 1000 < s)%Z).
  { rewrite Zlt_Qlt, inject_Z_mult. change (inject_Z 1000) with 1000 in *. lra. }
  assert (Hz' : ((c - 1) * 1000 + 1 <= s)%Z) by lia.
  rewrite Zle_Qle, inject_Z_plus, inject_Z_mult in Hz'.
  change (inject_Z 1000) with 1000 in *. change (inject_Z 1) with 1 in *. lra.
Qed.

(** The ceiling of the exact quotient, in integer arithmetic. *)
Lemma quotient_ceiling_Z s :
  Qceiling (inject_Z s / inject_Z 1000) = (- ((- s) / 1000))%Z.
Proof.
  unfold Qceiling. f_equal. rewrite Zdiv_Qdiv. apply Qfloor_comp.
  rewrite inject_Z_opp. field.
Qed.

Lemma truediv_1000_ceil s : (0 <= s <= 1000 * 2 ^ 44)%Z ->
  exists v, int_truediv s 1000 = Ok v /\
            ceil v = Qceiling (inject_Z s / inject_Z 1000).
Proof.
  intros Hs.
  destruct (Z.eq_dec s 0) as [-> | N0].
  { exists (round (inject_Z 0 / inject_Z 1000)). split; vm_compute; reflexivity. }
  destruct (Z.eq_dec s (1000 * 2 ^ 44)) as [-> | NT].
  { exists (round (inject_Z (1000 * 2 ^ 44) / inject_Z 1000)).
    split; vm_compute; reflexivity. }
  set (r := inject_Z s / inject_Z 1000).
  pose proof (quotient_scaled s) as E. fold r in E.
  change (inject_Z 1000) with 1000 in E.
  assert (Hs0 : 1 <= inject_Z s) by (apply (inject_Z_le 1); lia).
  assert (HsT : inject_Z s <= inject_Z (1000 * 2 ^ 44 - 1)) by (apply inject_Z_le; lia).
  assert (ET : inject_Z (1000 * 2 ^ 44 - 1) == 1000 * pow2 44 - 1).
  { rewrite pow2_Z by lia. rewrite <- (inject_Z_mult 1000). reflexivity. }
  pose proof (pow2_pos 44) as H44.
  assert (Hr0 : 0 < r) by lra.
  assert (Hr44 : r < pow2 44) by lra.
  set (c := Qceiling r).
  assert (Hc : (0 <= c <= 2 ^ 53)%Z).
  { split.
    - apply (Qceiling_resp_le 0 r). lra.
    - apply Z.le_trans with (2 ^ 44)%Z; [|lia].
      rewrite <- (Qceiling_Z (2 ^ 44)). apply Qceiling_resp_le.
      rewrite <- pow2_Z by lia. lra. }
  assert (Hv1 : round r <= inject_Z c).
  { apply round_le_Z; [lra | exact Hc | apply Qle_ceiling]. }
  assert (Hv2 : inject_Z (c - 1) < round r).
  { destruct (round_error r Hr0) as [He _].
    assert (Hu : (ulp_exp r - 1 <= -10)%Z).
    { pose proof (ilog2_lt r 44 Hr0 Hr44). unfold ulp_exp. lia. }
    pose proof (pow2_le _ _ Hu) as Hp.
    assert (E10 : pow2 (-10) == 1 # 1024) by reflexivity.
    pose proof (quotient_above_floor s) as Hq. fold r c in Hq. lra. }
  exists (round r). split.
  - unfold int_truediv. simpl (1000 =? 0)%Z. cbv iota. fold r.
    unfold finite_or_overflow. rewrite overflows_false; [reflexivity | | ].
    + apply round_nonneg. lra.
    + apply Qle_lt_trans with (inject_Z c); [exact Hv1|].
      apply Qle_lt_trans with (inject_Z (2 ^ 53)); [apply inject_Z_le; lia|].
      rewrite <- pow2_Z by lia. apply pow2_lt. lia.
  - apply ceil_unique; assumption.
Qed.

End KiloBytes.

(* ================================================================== *)
(** ** cycle_bucket on every positive integer *)

Section CycleBucketGeneral.
Local Open Scope Q_scope.

Lemma math_log2_cases n : (0 < n)%Z ->
  exists v, math_log2 n = Ok v /\
    ((overflows (round (inject_Z n)) = false /\ v = log2_ge1 (round (inject_Z n))) \/
     (overflows (round (inject_Z n)) = true /\ v == log2_large (round (inject_Z n)))).
Proof.
  intros Hn. destruct (overflows (round (inject_Z n))) eqn:Hov.
  - destruct (math_log2_large n Hn Hov) as (v & E & Hv).
    exists v. split; [exact E | right; split; [reflexivity | exact Hv]].
  - eexists. split; [apply math_log2_finite; assumption|].
    left. split; reflexivity.
Qed.

Lemma round_int_mono m n : (0 < m <= n)%Z ->
  round (inject_Z m) <= round (inject_Z n).
Proof.
  intros H. apply round_mono; [apply (inject_Z_le 0); lia | apply inject_Z_le; lia].
Qed.

Lemma math_log2_mono m n : (0 < m <= n)%Z ->
  exists v w, math_log2 m = Ok v /\ math_log2 n = Ok w /\ v <= w.
Proof.
  intros H.
  destruct (math_log2_cases m ltac:(lia)) as (v & Ev & Hv).
  destruct (math_log2_cases n ltac:(lia)) as (w & Ew & Hw).
  exists v, w. split; [exact Ev|]. split; [exact Ew|].
  pose proof (round_int_mono m n H) as HX.
  pose proof (round_int_ge_1 m ltac:(lia)) as H1.
  set (X := round (inject_Z m)) in *. set (Y := round (inject_Z n)) in *.
  destruct Hv as [[Ov ->] | [Ov Hv]]; destruct Hw as [[Ow ->] | [Ow Hw]].
  - apply log2_ge1_mono; assumption.
  - rewrite Hw.
    apply overflows_false_inv in Ov; [|lra].
    apply overflows_true_inv in Ow; [|lra].
    apply Qle_trans with (inject_Z 1024).
    + apply log2_ge1_upper; [lia | exact H1 | lra].
    + apply log2_large_ge; [lia | exact Ow].
  - apply overflows_true_inv in Ov; [|lra].
    apply overflows_false_inv in Ow; [|lra]. lra.
  - rewrite Hv, Hw. apply log2_large_mono; assumption.
Qed.

Lemma math_log2_nonneg n : (0 < n)%Z ->
  exists v, math_log2 n = Ok v /\ 0 <= v.
Proof.
  intros Hn. destruct (math_log2_cases n Hn) as (v & Ev & Hv).
  exists v. split; [exact Ev|].
  pose proof (round_int_ge_1 n ltac:(lia)) as H1.
  destruct Hv as [[Ov ->] | [Ov Hv]].
  - apply log2_ge1_nonneg, H1.
  - rewrite Hv. apply overflows_true_inv in Ov; [|lra].
    apply Qle_trans with (inject_Z 1024); [discriminate|].
    apply log2_large_ge; [lia | exact Ov].
Qed.

Lemma math_log2_pow2 k : (0 <= k <= 2 ^ 53)%Z ->
  exists v, math_log2 (2 ^ k) = Ok v /\ v == inject_Z k.
Proof.
  intros Hk.
  assert (Hn : (0 < 2 ^ k)%Z) by (apply Z.pow_pos_nonneg; lia).
  assert (EX : round (inject_Z (2 ^ k)) == pow2 k).
  { pose proof (pow2_pos k).
    rewrite <- (round_pow2 k) by lia. apply round_comp.
    - apply (inject_Z_le 0). lia.
    - symmetry. apply pow2_Z. lia. }
  destruct (math_log2_cases _ Hn) as (v & Ev & Hv).
  exists v. split; [exact Ev|].
  destruct Hv as [[Ov ->] | [Ov Hv]].
  - apply log2_ge1_pow2; assumption.
  - rewrite Hv. apply log2_large_pow2; assumption.
Qed.

End CycleBucketGeneral.

Lemma cycle_bucket_total tm : 0 < num_cycles tm ->
  exists b, cycle_bucket tm = Ok b /\ 0 <= b.
Proof.
  intros Hn. destruct (math_log2_nonneg _ Hn) as (v & Ev & Hv).
  exists (ceil v). unfold cycle_bucket. rewrite Ev. split; [reflexivity|].
  apply (ceil_ge v 0), Hv.
Qed.

Lemma cycle_bucket_mono tm tn : 0 < num_cycles tm <= num_cycles tn ->
  exists b c, cycle_bucket tm = Ok b /\ cycle_bucket tn = Ok c /\ b <= c.
Proof.
  intros H. destruct (math_log2_mono _ _ H) as (v & w & Ev & Ew & Hvw).
  exists (ceil v), (ceil w). unfold cycle_bucket. rewrite Ev, Ew.
  split; [reflexivity|]. split; [reflexivity|]. apply ceil_mono, Hvw.
Qed.

Lemma cycle_bucket_pow2 tm k : 0 <= k <= 2 ^ 53 -> num_cycles tm = 2 ^ k ->
  cycle_bucket tm = Ok k.
Proof.
  intros Hk E. destruct (math_log2_pow2 k Hk) as (v & Ev & Hv).
  unfold cycle_bucket. rewrite E, Ev. simpl. f_equal. apply ceil_Z, Hv.
Qed.

(* ================================================================== *)
(** ** kilo_bytes on every integer *)

(** Smallest magnitude of a combined byte size whose quotient by 1000 rounds
    to a value beyond the largest finite float. *)
Definition truediv_limit : Z := 1000 * (2 ^ 1024 - 2 ^ 970).

Section KiloBytesGeneral.
Local Open Scope Q_scope.

Lemma round_pos_below_overflow r : 0 < r -> r < pow2 1024 - pow2 970 ->
  0 <= round_pos r /\ round_pos r < pow2 1024.
Proof.
  intros H0 H. split; [apply round_pos_nonneg, H0|].
  destruct (round_pos_error r) as [_ He].
  pose proof (pow2_pos 970) as H970.
  assert (Hu : (ulp_exp r - 1 <= 970)%Z).
  { pose proof (ilog2_lt r 1024 H0 ltac:(lra)). unfold ulp_exp. lia. }
  pose proof (pow2_le _ _ Hu). lra.
Qed.

Lemma overflows_opp v : overflows (- v) = overflows v.
Proof.
  unfold overflows. destruct (Qle_bool (pow2 1024) (Qabs v)) eqn:E.
  - apply Qle_bool_iff. apply Qle_bool_iff in E. rewrite Qabs_opp. exact E.
  - destruct (Qle_bool (pow2 1024) (Qabs (- v))) eqn:E'; [|reflexivity].
    apply Qle_bool_iff in E'. rewrite Qabs_opp in E'.
    apply Qle_bool_iff in E'. congruence.
Qed.

Lemma round_finite r : Qabs r < pow2 1024 - pow2 970 -> overflows (round r) = false.
Proof.
  intros H. destruct (Qcompare_cases r 0) as [[_ Hr] | [[_ Hr] | [_ Hr]]].
  - rewrite round_neg_eq by exact Hr. rewrite overflows_opp.
    rewrite Qabs_neg in H by lra.
    destruct (round_pos_below_overflow (- r)) as [H1 H2]; [lra | exact H|].
    apply overflows_false; assumption.
  - rewrite round_zero by exact Hr. reflexivity.
  - rewrite round_pos_eq by exact Hr.
    rewrite Qabs_pos in H by lra.
    destruct (round_pos_below_overflow r) as [H1 H2]; [lra | exact H|].
    apply overflows_false; assumption.
Qed.

Lemma limit_as_Q : inject_Z truediv_limit == 1000 * (pow2 1024 - pow2 970).
Proof.
  unfold truediv_limit. rewrite inject_Z_mult.
  unfold Z.sub. rewrite inject_Z_plus, inject_Z_opp, <- !pow2_Z by lia.
  reflexivity.
Qed.

Lemma quotient_abs s : (Z.abs s < truediv_limit)%Z ->
  Qabs (inject_Z s / inject_Z 1000) < pow2 1024 - pow2 970.
Proof.
  intros H. apply inject_Z_lt in H. rewrite limit_as_Q in H.
  pose proof (quotient_scaled s) as E. change (inject_Z 1000) with 1000 in *.
  set (r := inject_Z s / 1000) in *.
  assert (Ea : inject_Z (Z.abs s) == Qabs r * 1000).
  { change (inject_Z (Z.abs s)) with (Qabs (inject_Z s)).
    rewrite <- E, Qabs_Qmult. reflexivity. }
  rewrite Ea in H. lra.
Qed.

Lemma int_truediv_finite s : (Z.abs s < truediv_limit)%Z ->
  int_truediv s 1000 = Ok (round (inject_Z s / inject_Z 1000)).
Proof.
  intros H. unfold int_truediv. simpl (1000 =? 0)%Z. cbv iota.
  unfold finite_or_overflow. rewrite round_finite; [reflexivity|].
  apply quotient_abs, H.
Qed.

Lemma quotient_mono s t : (s <= t)%Z ->
  inject_Z s / inject_Z 1000 <= inject_Z t / inject_Z 1000.
Proof.
  intros H. apply div_le_compat; [reflexivity | apply inject_Z_le, H].
Qed.

Lemma quotient_nonneg s : (0 <= s)%Z -> 0 <= inject_Z s / inject_Z 1000.
Proof.
  intros H. apply Qle_shift_div_l; [reflexivity|].
  rewrite Qmult_0_l. apply (inject_Z_le 0), H.
Qed.

(** From the midpoint between the largest finite float and [2^1024] on, the
    rounded value is beyond the finite range. *)
Lemma round_pos_overflow r : pow2 1024 - pow2 970 <= r -> pow2 1024 <= round_pos r.
Proof.
  intros H. pose proof (pow2_pos 970) as H970.
  assert (E1 : pow2 1024 == inject_Z (2 ^ 54) * pow2 970)
    by (rewrite <- pow2_Z, <- pow2_add by lia; reflexivity).
  assert (E2 : pow2 1023 == inject_Z (2 ^ 53) * pow2 970)
    by (rewrite <- pow2_Z, <- pow2_add by lia; reflexivity).
  assert (H54 : inject_Z (2 ^ 54) == 2 * inject_Z (2 ^ 53)) by reflexivity.
  assert (H53 : 1 <= inject_Z (2 ^ 53)) by discriminate.
  assert (Hr : 0 < r) by nra.
  assert (H1023 : pow2 1023 <= r) by nra.
  destruct (Qlt_le_dec r (pow2 1024)) as [Hlt | Hge].
  - assert (Ei : ilog2 r = 1023%Z) by (apply ilog2_unique; assumption).
    unfold round_pos, ulp_exp. rewrite Ei.
    change (Z.max (1023 - 52) (-1074)) with 971%Z.
    assert (E3 : pow2 1024 == inject_Z (2 ^ 53) * pow2 971)
      by (rewrite <- pow2_Z, <- pow2_add by lia; reflexivity).
    assert (E4 : pow2 971 == 2 * pow2 970)
      by (rewrite <- pow2_1, <- pow2_add; reflexivity).
    pose proof (pow2_pos 971) as H971.
    rewrite E3. apply Qmult_le_compat_r; [|lra].
    apply inject_Z_le, round_half_even_up_to_even; [reflexivity|].
    apply Qle_shift_div_l; [exact H971|]. nra.
  - destruct (round_binade r Hr) as [Hb _].
    { pose proof (ilog2_ge r 1024 Hge). lia. }
    rewrite round_pos_eq in Hb by exact Hr.
    pose proof (pow2_le 1024 (ilog2 r) (ilog2_ge r 1024 Hge)). lra.
Qed.

Lemma round_infinite r : pow2 1024 - pow2 970 <= Qabs r -> overflows (round r) = true.
Proof.
  intros H. pose proof (pow2_pos 970) as H970.
  assert (E1 : pow2 1024 == inject_Z (2 ^ 54) * pow2 970)
    by (rewrite <- pow2_Z, <- pow2_add by lia; reflexivity).
  assert (H54 : 2 <= inject_Z (2 ^ 54)) by discriminate.
  assert (Ha : 0 < Qabs r) by nra.
  destruct (Qcompare_cases r 0) as [[_ Hr] | [[_ Hr] | [_ Hr]]].
  - rewrite round_neg_eq by exact Hr. rewrite overflows_opp.
    rewrite Qabs_neg in H by lra. apply overflows_true, round_pos_overflow, H.
  - rewrite Hr in Ha. discriminate Ha.
  - rewrite round_pos_eq by exact Hr.
    rewrite Qabs_pos in H by lra. apply overflows_true, round_pos_overflow, H.
Qed.

Lemma quotient_abs_ge s : (truediv_limit <= Z.abs s)%Z ->
  pow2 1024 - pow2 970 <= Qabs (inject_Z s / inject_Z 1000).
Proof.
  intros H. apply inject_Z_le in H. rewrite limit_as_Q in H.
  pose proof (quotient_scaled s) as E. change (inject_Z 1000) with 1000 in *.
  set (r := inject_Z s / 1000) in *.
  assert (Ea : inject_Z (Z.abs s) == Qabs r * 1000).
  { change (inject_Z (Z.abs s)) with (Qabs (inject_Z s)).
    rewrite <- E, Qabs_Qmult. reflexivity. }
  rewrite Ea in H. lra.
Qed.

Lemma int_truediv_overflow s : (truediv_limit <= Z.abs s)%Z ->
  int_truediv s 1000 = Raise OverflowError.
Proof.
  intros H. unfold int_truediv. simpl (1000 =? 0)%Z. cbv iota.
  unfold finite_or_overflow. rewrite round_infinite; [reflexivity|].
  apply quotient_abs_ge, H.
Qed.

End KiloBytesGeneral.

Lemma kilo_bytes_finite tm :
  Z.abs (created_public_notes_byte_size tm + public_account_delta_byte_size tm)
    < truediv_limit ->
  kilo_bytes tm =
    Ok (ceil (round (inject_Z (created_public_notes_byte_size tm
                               + public_account_delta_byte_size tm)
                     / inject_Z 1000))).
Proof.
  intros H. unfold kilo_bytes. rewrite int_truediv_finite by exact H. reflexivity.
Qed.

(** [truediv_limit] is exact: from it on the division overflows. *)
Lemma kilo_bytes_overflow tm :
  truediv_limit
    <= Z.abs (created_public_notes_byte_size tm + public_account_delta_byte_size tm) ->
  kilo_bytes tm = Raise OverflowError.
Proof.
  intros H. unfold kilo_bytes. rewrite int_truediv_overflow by exact H. reflexivity.
Qed.

(* ================================================================== *)
(** ** calculate_computation_units *)

(** Sum of the two byte-size fields, the argument of [kilo_bytes]. *)
Definition public_bytes (tm : TransactionMetrics) : Z :=
  created_public_notes_byte_size tm + public_account_delta_byte_size tm.

(** The input invariant of the specification. *)
Definition valid_metrics (tm : TransactionMetrics) : Prop :=
  0 < num_cycles tm /\
  0 <= num_notes_consumed tm /\
  0 <= num_notes_created tm /\
  0 <= created_public_notes_byte_size tm /\
  0 <= public_account_delta_byte_size tm.

(** The ranges documented on the fields of [TransactionMetrics]. *)
Definition documented_domain (tm : TransactionMetrics) : Prop :=
  2 ^ 10 <= num_cycles tm <= 2 ^ 29 /\
  0 <= num_notes_consumed tm <= 1024 /\
  0 <= num_notes_created tm <= 1024 /\
  1000 <= created_public_notes_byte_size tm <= 20000 /\
  0 <= public_account_delta_byte_size tm <= 2 ^ 15.

(** [tm'] is [tm] with exactly one field replaced by a value at least as large. *)
Inductive increases_one_field (tm : TransactionMetrics) : TransactionMetrics -> Prop :=
  | inc_num_cycles v : num_cycles tm <= v ->
      increases_one_field tm
        (mkTransactionMetrics v (num_notes_consumed tm) (num_notes_created tm)
           (created_public_notes_byte_size tm) (public_account_delta_byte_size tm))
  | inc_num_notes_consumed v : num_notes_consumed tm <= v ->
      increases_one_field tm
        (mkTransactionMetrics (num_cycles tm) v (num_notes_created tm)
           (created_public_notes_byte_size tm) (public_account_delta_byte_size tm))
  | inc_num_notes_created v : num_notes_created tm <= v ->
      increases_one_field tm
        (mkTransactionMetrics (num_cycles tm) (num_notes_consumed tm) v
           (created_public_notes_byte_size tm) (public_account_delta_byte_size tm))
  | inc_created_public_notes_byte_size v : created_public_notes_byte_size tm <= v ->
      increases_one_field tm
        (mkTransactionMetrics (num_cycles tm) (num_notes_consumed tm)
           (num_notes_created tm) v (public_account_delta_byte_size tm))
  | inc_public_account_delta_byte_size v : public_account_delta_byte_size tm <= v ->
      increases_one_field tm
        (mkTransactionMetrics (num_cycles tm) (num_notes_consumed tm)
           (num_notes_created tm) (created_public_notes_byte_size tm) v).

(** Field-wise order on metrics. *)
Definition metrics_le (tm tm' : TransactionMetrics) : Prop :=
  num_cycles tm <= num_cycles tm' /\
  num_notes_consumed tm <= num_notes_consumed tm' /\
  num_notes_created tm <= num_notes_created tm' /\
  created_public_notes_byte_size tm <= created_public_notes_byte_size tm' /\
  public_account_delta_byte_size tm <= public_account_delta_byte_size tm'.

Lemma increases_one_field_le tm tm' : increases_one_field tm tm' -> metrics_le tm tm'.
Proof. intros H. destruct H; unfold metrics_le; simpl; lia. Qed.

Lemma calculate_computation_units_ok tm cb kb :
  cycle_bucket tm = Ok cb -> kilo_bytes tm = Ok kb ->
  calculate_computation_units tm =
    Ok (mkComputationSummary (cb * 500) (num_notes_consumed tm * 30)
          (num_notes_created tm * 50) (kb * 15)).
Proof.
  intros Ec Ek. unfold calculate_computation_units. rewrite Ec, Ek. reflexivity.
Qed.

Lemma calculate_computation_units_returns tm :
  0 < num_cycles tm -> Z.abs (public_bytes tm) < truediv_limit ->
  exists cb kb,
    cycle_bucket tm = Ok cb /\ kilo_bytes tm = Ok kb /\ 0 <= cb /\
    calculate_computation_units tm =
      Ok (mkComputationSummary (cb * 500) (num_notes_consumed tm * 30)
            (num_notes_created tm * 50) (kb * 15)).
Proof.
  intros Hn Hb. destruct (cycle_bucket_total tm Hn) as (cb & Ec & Hcb).
  pose proof (kilo_bytes_finite tm Hb) as Ek.
  eexists cb, _. split; [exact Ec|]. split; [exact Ek|]. split; [exact Hcb|].
  apply calculate_computation_units_ok; assumption.
Qed.

Lemma kilo_bytes_nonneg tm kb : 0 <= public_bytes tm -> kilo_bytes tm = Ok kb ->
  0 <= kb.
Proof.
  intros Hb. unfold kilo_bytes, int_truediv. simpl (1000 =? 0). cbv iota.
  unfold finite_or_overflow.
  destruct (overflows _); [discriminate|]. simpl. intros [= <-].
  apply (ceil_ge _ 0), round_nonneg, quotient_nonneg, Hb.
Qed.

Lemma kilo_bytes_mono tm tm' :
  0 <= public_bytes tm <= public_bytes tm' -> public_bytes tm' < truediv_limit ->
  exists kb kb', kilo_bytes tm = Ok kb /\ kilo_bytes tm' = Ok kb' /\ kb <= kb'.
Proof.
  intros Hb Hl. unfold public_bytes in *.
  eexists _, _. split; [apply kilo_bytes_finite; lia|].
  split; [apply kilo_bytes_finite; lia|].
  apply ceil_mono, round_mono; [apply quotient_nonneg | apply quotient_mono]; lia.
Qed.

Lemma documented_domain_bytes tm : documented_domain tm ->
  0 < num_cycles tm /\ Z.abs (public_bytes tm) < truediv_limit.
Proof.
  unfold documented_domain, public_bytes. intros (Hn & _ & _ & Hb & Hd).
  split; [lia|].
  assert (2 ^ 16 < truediv_limit) by reflexivity. lia.
Qed.

Lemma total_mono_le tm tm' : valid_metrics tm -> metrics_le tm tm' ->
  public_bytes tm' < truediv_limit ->
  exists s s',
    calculate_computation_units tm = Ok s /\
    calculate_computation_units tm' = Ok s' /\
    total_computation_units s <= total_computation_units s'.
Proof.
  intros (Hn & Hc & Hr & Hb & Hd) (Ln & Lc & Lr & Lb & Ld) Hl.
  destruct (cycle_bucket_mono tm tm' (conj Hn Ln)) as (cb & cb' & Ec & Ec' & Hcb).
  destruct (kilo_bytes_mono tm tm') as (kb & kb' & Ek & Ek' & Hkb);
    [unfold public_bytes; lia | exact Hl|].
  eexists _, _.
  split; [apply (calculate_computation_units_ok tm cb kb); assumption|].
  split; [apply (calculate_computation_units_ok tm' cb' kb'); assumption|].
  unfold total_computation_units. simpl. lia.
Qed.

Lemma cycle_bucket_ext tm tm' :
  num_cycles tm = num_cycles tm' -> cycle_bucket tm = cycle_bucket tm'.
Proof. intros E. unfold cycle_bucket. rewrite E. reflexivity. Qed.

Lemma kilo_bytes_ext tm tm' :
  public_bytes tm = public_bytes tm' -> kilo_bytes tm = kilo_bytes tm'.
Proof.
  intros E. unfold kilo_bytes. unfold public_bytes in E. rewrite E. reflexivity.
Qed.

Lemma calculate_computation_units_inv tm s :
  calculate_computation_units tm = Ok s ->
  exists cb kb, cycle_bucket tm = Ok cb /\ kilo_bytes tm = Ok kb /\
    s = mkComputationSummary (cb * 500) (num_notes_consumed tm * 30)
          (num_notes_created tm * 50) (kb * 15).
Proof.
  unfold calculate_computation_units.
  destruct (cycle_bucket tm) as [cb|e]; [|discriminate].
  destruct (kilo_bytes tm) as [kb|e]; [|discriminate].
  cbn [bind]. intros [= <-]. exists cb, kb. repeat split.
Qed.

Lemma kilo_bytes_cases tm :
  (Z.abs (public_bytes tm) < truediv_limit /\ exists kb, kilo_bytes tm = Ok kb) \/
  (truediv_limit <= Z.abs (public_bytes tm) /\ kilo_bytes tm = Raise OverflowError).
Proof.
  destruct (Z_lt_le_dec (Z.abs (public_bytes tm)) truediv_limit) as [H | H].
  - left. split; [exact H|]. eexists. apply kilo_bytes_finite, H.
  - right. split; [exact H|]. apply kilo_bytes_overflow, H.
Qed.

Lemma cycle_bucket_cases tm :
  (num_cycles tm <= 0 /\ cycle_bucket tm = Raise ValueError) \/
  (0 < num_cycles tm /\ exists cb, cycle_bucket tm = Ok cb /\ 0 <= cb).
Proof.
  destruct (Z_le_gt_dec (num_cycles tm) 0) as [H | H].
  - left. split; [exact H | apply cycle_bucket_nonpositive, H].
  - right. split; [lia | apply cycle_bucket_total; lia].
Qed.

(** The three ways [calculate_computation_units] ends: the logarithm is
    taken first, the division second. *)
Lemma calculate_computation_units_cases tm :
  (num_cycles tm <= 0 /\ calculate_computation_units tm = Raise ValueError) \/
  (0 < num_cycles tm /\ truediv_limit <= Z.abs (public_bytes tm) /\
   calculate_computation_units tm = Raise OverflowError) \/
  (0 < num_cycles tm /\ Z.abs (public_bytes tm) < truediv_limit /\
   exists s, calculate_computation_units tm = Ok s).
Proof.
  unfold calculate_computation_units.
  destruct (cycle_bucket_cases tm) as [[Hn Ec] | [Hn (cb & Ec & _)]]; rewrite Ec;
    cbn [bind].
  - left. split; [exact Hn | reflexivity].
  - right. destruct (kilo_bytes_cases tm) as [[Hb [kb Ek]] | [Hb Ek]]; rewrite Ek;
      cbn [bind].
    + right. split; [exact Hn|]. split; [exact Hb|]. eexists. reflexivity.
    + left. split; [exact Hn|]. split; [exact Hb | reflexivity].
Qed.

Lemma calculate_computation_units_domain tm s :
  calculate_computation_units tm = Ok s ->
  0 < num_cycles tm /\ Z.abs (public_bytes tm) < truediv_limit.
Proof.
  intros E.
  destruct (calculate_computation_units_cases tm)
    as [[_ C] | [(_ & _ & C) | (Hn & Hb & _)]];
    [rewrite C in E; discriminate | rewrite C in E; discriminate | split; assumption].
Qed.

(* ================================================================== *)
(** ** Properties of the fee model *)

(** The scaled logarithm is reasoned about through its lemmas and evaluated
    by [vm_compute] only; unification is not to unfold it. *)
Global Opaque log2_scaled.

(** The model on sample inputs: scenario A of the specification, the
    boundary [num_cycles = 1], cycle counts that are not powers of two, and
    the largest byte size that still divides without overflow. *)
Example scenario_A :
  calculate_computation_units (mkTransactionMetrics 65536 5 5 0 0)
  = Ok (mkComputationSummary 8000 150 250 0).
Proof. vm_compute. reflexivity. Qed.

Example cycle_bucket_samples :
  cycle_bucket (mkTransactionMetrics 1 0 0 0 0) = Ok 0 /\
  cycle_bucket (mkTransactionMetrics 1025 0 0 0 0) = Ok 11 /\
  cycle_bucket (mkTransactionMetrics 1000000 0 0 0 0) = Ok 20 /\
  cycle_bucket (mkTransactionMetrics (2 ^ 29 - 1) 0 0 0 0) = Ok 29 /\
  cycle_bucket (mkTransactionMetrics (2 ^ 1024 + 2 ^ 1000) 0 0 0 0) = Ok 1025.
Proof.
  split; [vm_compute; reflexivity|]. split; [vm_compute; reflexivity|].
  split; [vm_compute; reflexivity|]. split; vm_compute; reflexivity.
Qed.

Example kilo_bytes_samples :
  kilo_bytes (mkTransactionMetrics 1024 0 0 0 0) = Ok 0 /\
  kilo_bytes (mkTransactionMetrics 1024 0 0 1300 700) = Ok 2 /\
  kilo_bytes (mkTransactionMetrics 1024 0 0 (-1) 0) = Ok 0 /\
  kilo_bytes (mkTransactionMetrics 1024 0 0 (truediv_limit - 1) 0)
  = Ok (2 ^ 1024 - 2 ^ 971) /\
  kilo_bytes (mkTransactionMetrics 1024 0 0 truediv_limit 0) = Raise OverflowError.
Proof.
  split; [vm_compute; reflexivity|]. split; [vm_compute; reflexivity|].
  split; [vm_compute; reflexivity|]. split; vm_compute; reflexivity.
Qed.

(** Claim C1, as the specification states it, fails: a negative metric is
    not rejected.  One consumed-note count of [-1] is accepted and priced at
    [-30] units. *)
Lemma negative_metric_not_rejected :
  calculate_computation_units (mkTransactionMetrics 1024 (-1) 0 0 0)
  = Ok (mkComputationSummary 5000 (-30) 0 0).
Proof. vm_compute. reflexivity. Qed.

(** Claim C1 (amended).  A non-positive [num_cycles], zero included, fails
    with the [ValueError] of [math.log2], and [ValueError] is raised for no
    other input.  No other metric is validated: with a positive [num_cycles]
    and a combined byte size of magnitude below [truediv_limit], negative
    metrics included, the summary is computed; the note units are the note
    counts times their rates, negative when the counts are.  The only other
    failure is the [OverflowError] of the float division, raised exactly when
    [num_cycles] is positive and the combined byte size has magnitude
    [truediv_limit] or more.  Every input within the documented domains
    computes without error. *)
Theorem invalid_input_handling :
  (forall tm, calculate_computation_units tm = Raise ValueError <->
     num_cycles tm <= 0) /\
  (forall tm, 0 < num_cycles tm -> Z.abs (public_bytes tm) < truediv_limit ->
     exists s, calculate_computation_units tm = Ok s /\
               notes_consumed_units s = num_notes_consumed tm * 30 /\
               notes_created_units s = num_notes_created tm * 50 /\
               (num_notes_consumed tm < 0 -> notes_consumed_units s < 0) /\
               (num_notes_created tm < 0 -> notes_created_units s < 0)) /\
  (forall tm, calculate_computation_units tm = Raise OverflowError <->
     0 < num_cycles tm /\ truediv_limit <= Z.abs (public_bytes tm)) /\
  (forall tm e, calculate_computation_units tm = Raise e ->
     e = ValueError \/ e = OverflowError) /\
  (forall tm, documented_domain tm ->
     exists s, calculate_computation_units tm = Ok s).
Proof.
  split; [|split; [|split; [|split]]].
  - intros tm.
    destruct (calculate_computation_units_cases tm)
      as [[Hn E] | [(Hn & _ & E) | (Hn & _ & s & E)]]; rewrite E;
      split; intros H; first [reflexivity | exact Hn | discriminate | lia].
  - intros tm Hn Hb.
    destruct (calculate_computation_units_returns tm Hn Hb)
      as (cb & kb & _ & _ & _ & E).
    eexists. split; [exact E|].
    cbn [notes_consumed_units notes_created_units]. repeat split; lia.
  - intros tm.
    destruct (calculate_computation_units_cases tm)
      as [[Hn E] | [(Hn & Hb & E) | (Hn & Hb & s & E)]]; rewrite E;
      split; intros H;
      first [reflexivity | discriminate | split; assumption | lia].
  - intros tm e.
    destruct (calculate_computation_units_cases tm)
      as [[_ E] | [(_ & _ & E) | (_ & _ & s & E)]]; rewrite E;
      intros [= <-]; [left | right]; reflexivity.
  - intros tm H. destruct (documented_domain_bytes tm H) as [Hn Hb].
    destruct (calculate_computation_units_returns tm Hn Hb)
      as (cb & kb & _ & _ & _ & E).
    eexists. exact E.
Qed.

Lemma invalid_input_handling_witness :
  calculate_computation_units (mkTransactionMetrics 0 5 5 1300 0) = Raise ValueError /\
  (exists s, calculate_computation_units (mkTransactionMetrics 65536 (-5) 5 (-1300) 0) = Ok s /\
             notes_consumed_units s = -5 * 30 /\ notes_created_units s = 5 * 50) /\
  calculate_computation_units (mkTransactionMetrics 65536 5 5 truediv_limit 0)
  = Raise OverflowError /\
  (exists s, calculate_computation_units (mkTransactionMetrics 65536 5 5 6500 0) = Ok s).
Proof.
  destruct invalid_input_handling as (H1 & H2 & H3 & _ & H5).
  split; [|split; [|split]].
  - apply (proj2 (H1 (mkTransactionMetrics 0 5 5 1300 0))). simpl. lia.
  - destruct (H2 (mkTransactionMetrics 65536 (-5) 5 (-1300) 0))
      as (s & E & Ec & Er & _).
    + simpl. lia.
    + vm_compute. reflexivity.
    + exists s. split; [exact E|]. split; [exact Ec | exact Er].
  - apply (proj2 (H3 (mkTransactionMetrics 65536 5 5 truediv_limit 0))).
    split; [simpl; lia|]. vm_compute. discriminate.
  - apply (H5 (mkTransactionMetrics 65536 5 5 6500 0)).
    unfold documented_domain. simpl. lia.
Defined.

(** Claim C2, as the specification states it, fails: with a positive
    [num_cycles] and a byte size beyond the float range no summary is
    returned, the division in [kilo_bytes] raises [OverflowError]. *)
Lemma huge_byte_size_raises :
  calculate_computation_units (mkTransactionMetrics 1024 0 0 (10 ^ 400) 0)
  = Raise OverflowError.
Proof. vm_compute. reflexivity. Qed.

(** Claim C2 (amended).  For every TransactionMetrics with [num_cycles > 0]
    and a combined byte size of magnitude below [truediv_limit],
    [cycle_bucket] and [kilo_bytes] return, and
    [calculate_computation_units] returns the summary with
    [cycle_units = cycle_bucket() * 500],
    [notes_consumed_units = num_notes_consumed * 30],
    [notes_created_units = num_notes_created * 50] and
    [data_units = kilo_bytes() * 15]. *)
Theorem calculate_computation_units_formula tm :
  0 < num_cycles tm -> Z.abs (public_bytes tm) < truediv_limit ->
  exists cb kb,
    cycle_bucket tm = Ok cb /\ kilo_bytes tm = Ok kb /\
    calculate_computation_units tm =
      Ok (mkComputationSummary
            (cb * COMPUTATION_UNIT_PER_CYCLE_BUCKET)
            (num_notes_consumed tm * COMPUTATION_UNIT_PER_CONSUMED_NOTE)
            (num_notes_created tm * COMPUTATION_UNIT_PER_CREATED_NOTE)
            (kb * COMPUTATION_UNIT_PER_KILO_BYTE)) /\
    COMPUTATION_UNIT_PER_CYCLE_BUCKET = 500 /\
    COMPUTATION_UNIT_PER_CONSUMED_NOTE = 30 /\
    COMPUTATION_UNIT_PER_CREATED_NOTE = 50 /\
    COMPUTATION_UNIT_PER_KILO_BYTE = 15.
Proof.
  intros Hn Hb.
  destruct (calculate_computation_units_returns tm Hn Hb)
    as (cb & kb & Ec & Ek & _ & E).
  exists cb, kb. split; [exact Ec|]. split; [exact Ek|]. split; [exact E|].
  repeat split.
Qed.

Lemma calculate_computation_units_formula_witness :
  exists cb kb,
    cycle_bucket (mkTransactionMetrics 65536 5 5 6500 0) = Ok cb /\
    kilo_bytes (mkTransactionMetrics 65536 5 5 6500 0) = Ok kb /\
    calculate_computation_units (mkTransactionMetrics 65536 5 5 6500 0) =
      Ok (mkComputationSummary (cb * 500) (5 * 30) (5 * 50) (kb * 15)) /\
    COMPUTATION_UNIT_PER_CYCLE_BUCKET = 500 /\
    COMPUTATION_UNIT_PER_CONSUMED_NOTE = 30 /\
    COMPUTATION_UNIT_PER_CREATED_NOTE = 50 /\
    COMPUTATION_UNIT_PER_KILO_BYTE = 15.
Proof.
  apply (calculate_computation_units_formula (mkTransactionMetrics 65536 5 5 6500 0)).
  - simpl. lia.
  - vm_compute. reflexivity.
Defined.

(** Claim C3, as the specification states it, fails: the logarithm is
    computed on floats.  [2^49 + 1] has a logarithm less than half a unit in
    the last place above 49 and lands in bucket 49, and [2^53 + 1] is first
    converted to the float [2^53] and lands in bucket 53; the ceilings of
    their base-2 logarithms are 50 and 54. *)
Lemma cycle_bucket_not_ceil_log2 :
  cycle_bucket (mkTransactionMetrics (2 ^ 49 + 1) 0 0 0 0) = Ok 49 /\
  Z.log2_up (2 ^ 49 + 1) = 50 /\
  cycle_bucket (mkTransactionMetrics (2 ^ 53 + 1) 0 0 0 0) = Ok 53 /\
  Z.log2_up (2 ^ 53 + 1) = 54.
Proof.
  split; [vm_compute; reflexivity|]. split; [vm_compute; reflexivity|].
  split; vm_compute; reflexivity.
Qed.

(** Claim C3 (amended).  For every [num_cycles] from 1 to [2^49], which
    covers the documented range [2^10 .. 2^29], [cycle_bucket()] equals the
    ceiling of the base-2 logarithm of [num_cycles]; and when [num_cycles] is
    exactly a power of two [2^k], with [k] up to [2^53], [cycle_bucket()]
    equals [k] exactly. *)
Theorem cycle_bucket_ceil_log2 tm :
  1 <= num_cycles tm ->
  (num_cycles tm <= 2 ^ 49 ->
     cycle_bucket tm = Ok (Z.log2_up (num_cycles tm))) /\
  (forall k, 0 <= k <= 2 ^ 53 -> num_cycles tm = 2 ^ k ->
     cycle_bucket tm = Ok k).
Proof.
  intros H1. split.
  - intros H2. rewrite cycle_bucket_small by lia.
    rewrite ceil_log2_small by lia. reflexivity.
  - intros k Hk E. apply cycle_bucket_pow2; assumption.
Qed.

Lemma cycle_bucket_ceil_log2_witness :
  cycle_bucket (mkTransactionMetrics 1000000 0 0 0 0) = Ok 20 /\
  cycle_bucket (mkTransactionMetrics (2 ^ 16) 0 0 0 0) = Ok 16.
Proof.
  split.
  - apply (proj1 (cycle_bucket_ceil_log2 (mkTransactionMetrics 1000000 0 0 0 0)
                    ltac:(cbn [num_cycles]; lia))).
    cbn [num_cycles]. lia.
  - apply (proj2 (cycle_bucket_ceil_log2 (mkTransactionMetrics (2 ^ 16) 0 0 0 0)
                    ltac:(cbn [num_cycles]; lia)) 16); [lia | reflexivity].
Defined.

(** Claim C4, as the specification states it, fails: the quotient is a
    float.  A combined byte size of [1000 * 2^44 + 1] has the exact quotient
    [2^44 + 1/1000], which rounds to the float [2^44]; [kilo_bytes()] is
    [2^44] and the ceiling of the quotient is [2^44 + 1]. *)
Lemma kilo_bytes_not_ceil :
  kilo_bytes (mkTransactionMetrics 1024 0 0 (1000 * 2 ^ 44 + 1) 0) = Ok (2 ^ 44) /\
  Qceiling (inject_Z (1000 * 2 ^ 44 + 1) / inject_Z 1000) = 2 ^ 44 + 1.
Proof. split; vm_compute; reflexivity. Qed.

(** Claim C4 (amended).  For every TransactionMetrics with non-negative
    byte sizes whose sum is at most [1000 * 2^44], [kilo_bytes()] equals the
    ceiling of the sum divided by 1000; in particular a combined byte size
    of 1 yields 1, one of 1000 yields exactly 1, and one of 1001 yields 2. *)
Theorem kilo_bytes_ceil tm :
  0 <= created_public_notes_byte_size tm ->
  0 <= public_account_delta_byte_size tm ->
  public_bytes tm <= 1000 * 2 ^ 44 ->
  kilo_bytes tm = Ok (Qceiling (inject_Z (public_bytes tm) / inject_Z 1000)) /\
  (public_bytes tm = 1 -> kilo_bytes tm = Ok 1) /\
  (public_bytes tm = 1000 -> kilo_bytes tm = Ok 1) /\
  (public_bytes tm = 1001 -> kilo_bytes tm = Ok 2).
Proof.
  intros Hc Hd Hb.
  assert (E : kilo_bytes tm = Ok (Qceiling (inject_Z (public_bytes tm) / inject_Z 1000))).
  { destruct (truediv_1000_ceil (public_bytes tm)) as (v & Ev & Hv);
      [unfold public_bytes in *; lia|].
    unfold kilo_bytes. fold (public_bytes tm). rewrite Ev. cbn [bind].
    unfold math_ceil. rewrite Hv. reflexivity. }
  split; [exact E|].
  repeat split; intros Es; rewrite E, Es; reflexivity.
Qed.

Lemma kilo_bytes_ceil_witness :
  kilo_bytes (mkTransactionMetrics 65536 5 5 1001 0) = Ok 2.
Proof.
  apply (kilo_bytes_ceil (mkTransactionMetrics 65536 5 5 1001 0));
    try (cbn; lia); reflexivity.
Defined.

(** Claim C5.  For every ComputationSummary, [total_computation_units()]
    is the sum of its four unit fields, read from the summary it is called
    on; this holds in particular for every summary that
    [calculate_computation_units] returns. *)
Theorem total_computation_units_sum :
  (forall s,
     total_computation_units s =
       cycle_units s + notes_consumed_units s + notes_created_units s
       + data_units s) /\
  (forall c n m d,
     total_computation_units (mkComputationSummary c n m d) = c + n + m + d) /\
  (forall tm s, calculate_computation_units tm = Ok s ->
     total_computation_units s =
       cycle_units s + notes_consumed_units s + notes_created_units s
       + data_units s).
Proof. repeat split. Qed.

Lemma total_computation_units_sum_witness :
  total_computation_units (mkComputationSummary 5000 (-30) 0 0)
  = cycle_units (mkComputationSummary 5000 (-30) 0 0)
    + notes_consumed_units (mkComputationSummary 5000 (-30) 0 0)
    + notes_created_units (mkComputationSummary 5000 (-30) 0 0)
    + data_units (mkComputationSummary 5000 (-30) 0 0).
Proof.
  apply (proj2 (proj2 total_computation_units_sum)
           (mkTransactionMetrics 1024 (-1) 0 0 0)).
  vm_compute. reflexivity.
Defined.

(** Claim C6.  Scenario B of the specification: for [num_cycles = 1048576],
    250 notes consumed, 250 notes created, 325000 bytes of public notes and
    no account delta, [cycle_bucket()] is 20, [kilo_bytes()] is 325, the
    summary is (10000, 7500, 12500, 4875) and its total is 34875. *)
Theorem scenario_B :
  let tx := mkTransactionMetrics 1048576 250 250 325000 0 in
  cycle_bucket tx = Ok 20 /\
  kilo_bytes tx = Ok 325 /\
  calculate_computation_units tx = Ok (mkComputationSummary 10000 7500 12500 4875) /\
  total_computation_units (mkComputationSummary 10000 7500 12500 4875) = 34875.
Proof.
  cbv zeta. split; [vm_compute; reflexivity|]. split; [vm_compute; reflexivity|].
  split; [vm_compute; reflexivity | reflexivity].
Qed.

(** Claim C7.  For every TransactionMetrics satisfying the input invariant
    (all five fields non-negative, [num_cycles > 0]), the summary returned by
    [calculate_computation_units] has four non-negative fields.  A summary is
    returned exactly when the combined byte size is below [truediv_limit]. *)
Theorem summary_fields_nonnegative tm :
  valid_metrics tm ->
  (forall s, calculate_computation_units tm = Ok s ->
     0 <= cycle_units s /\ 0 <= notes_consumed_units s /\
     0 <= notes_created_units s /\ 0 <= data_units s) /\
  ((exists s, calculate_computation_units tm = Ok s) <->
     public_bytes tm < truediv_limit).
Proof.
  intros (Hn & Hc & Hr & Hb & Hd).
  assert (H0 : 0 <= public_bytes tm) by (unfold public_bytes; lia).
  split; [|split].
  - intros s E.
    destruct (calculate_computation_units_inv tm s E) as (cb & kb & Ec & Ek & ->).
    destruct (cycle_bucket_total tm Hn) as (cb' & Ec' & Hcb).
    rewrite Ec in Ec'. injection Ec' as <-.
    pose proof (kilo_bytes_nonneg tm kb H0 Ek) as Hkb.
    cbn [cycle_units notes_consumed_units notes_created_units data_units]. lia.
  - intros [s E]. destruct (calculate_computation_units_domain tm s E) as [_ Hl]. lia.
  - intros Hl.
    destruct (calculate_computation_units_returns tm Hn ltac:(lia))
      as (cb & kb & _ & _ & _ & E).
    eexists. exact E.
Qed.

Lemma summary_fields_nonnegative_witness :
  exists s, calculate_computation_units (mkTransactionMetrics 65536 5 5 6500 0) = Ok s /\
            0 <= cycle_units s /\ 0 <= notes_consumed_units s /\
            0 <= notes_created_units s /\ 0 <= data_units s.
Proof.
  destruct (summary_fields_nonnegative (mkTransactionMetrics 65536 5 5 6500 0))
    as [H1 H2].
  - unfold valid_metrics. cbn. lia.
  - destruct (proj2 H2) as [s E]; [vm_compute; reflexivity|].
    exists s. split; [exact E | exact (H1 s E)].
Defined.

(** Claim C8.  [cycle_bucket()] is monotonically non-decreasing in
    [num_cycles]: for all integers [0 < m <= n], both buckets are defined and
    the bucket of a TransactionMetrics with [num_cycles = m] is at most the
    bucket of one with [num_cycles = n]. *)
Theorem cycle_bucket_monotone tm tn :
  0 < num_cycles tm -> num_cycles tm <= num_cycles tn ->
  exists b c, cycle_bucket tm = Ok b /\ cycle_bucket tn = Ok c /\ b <= c.
Proof. intros H1 H2. apply cycle_bucket_mono. split; assumption. Qed.

Lemma cycle_bucket_monotone_witness :
  exists b c, cycle_bucket (mkTransactionMetrics 1000 5 5 6500 0) = Ok b /\
              cycle_bucket (mkTransactionMetrics 3000 5 5 6500 0) = Ok c /\ b <= c.
Proof.
  apply (cycle_bucket_monotone (mkTransactionMetrics 1000 5 5 6500 0)
                               (mkTransactionMetrics 3000 5 5 6500 0));
    cbn [num_cycles]; lia.
Defined.

(** Claim C9.  For every TransactionMetrics in the valid domain
    ([num_cycles > 0], all fields non-negative), increasing any single input
    field while holding the others fixed never decreases
    [total_computation_units()] of the resulting summary.  Both summaries
    are returned whenever the combined byte size of the increased metrics is
    below [truediv_limit]. *)
Theorem total_monotone tm tm' :
  valid_metrics tm -> increases_one_field tm tm' ->
  (forall s s', calculate_computation_units tm = Ok s ->
     calculate_computation_units tm' = Ok s' ->
     total_computation_units s <= total_computation_units s') /\
  (public_bytes tm' < truediv_limit ->
     exists s s', calculate_computation_units tm = Ok s /\
                  calculate_computation_units tm' = Ok s').
Proof.
  intros Hv Hi. pose proof (increases_one_field_le tm tm' Hi) as Hle.
  split.
  - intros s s' E E'.
    destruct (calculate_computation_units_domain tm' s' E') as [_ Hl].
    destruct (total_mono_le tm tm' Hv Hle ltac:(lia)) as (t & t' & F & F' & Ht).
    rewrite E in F. rewrite E' in F'. injection F as <-. injection F' as <-.
    exact Ht.
  - intros Hl.
    destruct (total_mono_le tm tm' Hv Hle Hl) as (t & t' & F & F' & _).
    exists t, t'. split; assumption.
Qed.

Lemma total_monotone_witness :
  exists s s',
    calculate_computation_units (mkTransactionMetrics 65536 5 5 6500 0) = Ok s /\
    calculate_computation_units (mkTransactionMetrics 65536 5 5 6500 300) = Ok s' /\
    total_computation_units s <= total_computation_units s'.
Proof.
  destruct (total_monotone (mkTransactionMetrics 65536 5 5 6500 0)
                           (mkTransactionMetrics 65536 5 5 6500 300)) as [H1 H2].
  - unfold valid_metrics. cbn. lia.
  - apply (inc_public_account_delta_byte_size
             (mkTransactionMetrics 65536 5 5 6500 0) 300). cbn. lia.
  - destruct H2 as (s & s' & E & E'); [vm_compute; reflexivity|].
    exists s, s'. split; [exact E|]. split; [exact E' | exact (H1 s s' E E')].
Defined.

(** Claim C10.  [kilo_bytes()] and [data_units] depend only on the sum of
    the two byte-size fields: two TransactionMetrics that agree on
    [num_cycles], [num_notes_consumed] and [num_notes_created] and whose
    byte-size fields have equal sums have the same [kilo_bytes()] and the
    same outcome of [calculate_computation_units]. *)
Theorem byte_sizes_only_through_sum tm1 tm2 :
  num_cycles tm1 = num_cycles tm2 ->
  num_notes_consumed tm1 = num_notes_consumed tm2 ->
  num_notes_created tm1 = num_notes_created tm2 ->
  created_public_notes_byte_size tm1 + public_account_delta_byte_size tm1
  = created_public_notes_byte_size tm2 + public_account_delta_byte_size tm2 ->
  kilo_bytes tm1 = kilo_bytes tm2 /\
  calculate_computation_units tm1 = calculate_computation_units tm2.
Proof.
  intros Hn Hc Hr Hs.
  assert (Ek : kilo_bytes tm1 = kilo_bytes tm2)
    by (unfold kilo_bytes; rewrite Hs; reflexivity).
  assert (Ec : cycle_bucket tm1 = cycle_bucket tm2)
    by (unfold cycle_bucket; rewrite Hn; reflexivity).
  split; [exact Ek|].
  unfold calculate_computation_units. rewrite Ek, Ec, Hc, Hr. reflexivity.
Qed.

Lemma byte_sizes_only_through_sum_witness :
  kilo_bytes (mkTransactionMetrics 65536 5 5 6500 300)
  = kilo_bytes (mkTransactionMetrics 65536 5 5 800 6000) /\
  calculate_computation_units (mkTransactionMetrics 65536 5 5 6500 300)
  = calculate_computation_units (mkTransactionMetrics 65536 5 5 800 6000).
Proof.
  apply (byte_sizes_only_through_sum (mkTransactionMetrics 65536 5 5 6500 300)
                                     (mkTransactionMetrics 65536 5 5 800 6000));
    reflexivity.
Defined.

(* ================================================================== *)
(** ** Further properties of the fee model *)

Section SignedRounding.
Local Open Scope Q_scope.

Lemma round_nonpos r : r <= 0 -> round r <= 0.
Proof.
  intros Hr. destruct (Qle_lt_or_eq _ _ Hr) as [H | H].
  - rewrite round_neg_eq by exact H.
    pose proof (round_pos_nonneg (- r)). lra.
  - rewrite round_zero by exact H. lra.
Qed.

(** Rounding is monotone on all rationals. *)
Lemma round_mono_signed r s : r <= s -> round r <= round s.
Proof.
  intros H. destruct (Qlt_le_dec r 0) as [Hr | Hr].
  - destruct (Qlt_le_dec s 0) as [Hs | Hs].
    + rewrite !round_neg_eq by assumption.
      pose proof (round_pos_mono (- s) (- r)). lra.
    + apply Qle_trans with 0; [apply round_nonpos; lra | apply round_nonneg, Hs].
  - apply round_mono; assumption.
Qed.

Lemma floor_unique v f : inject_Z f <= v -> v < inject_Z (f + 1) -> Qfloor v = f.
Proof.
  intros H1 H2. pose proof (Qfloor_le v) as H3. pose proof (Qlt_floor v) as H4.
  assert (f < Qfloor v + 1)%Z by (rewrite Zlt_Qlt; lra).
  assert (Qfloor v < f + 1)%Z by (rewrite Zlt_Qlt; lra).
  lia.
Qed.

(** Rounding a positive quotient by 1000 of at most [2^44] keeps its floor. *)
Lemma round_pos_keeps_floor q a : (0 < a <= 1000 * 2 ^ 44)%Z ->
  q * 1000 == inject_Z a -> Qfloor (round_pos q) = Qfloor q.
Proof.
  intros Ha E.
  assert (Ha0 : 1 <= inject_Z a) by (apply (inject_Z_le 1); lia).
  assert (HaT : inject_Z a <= inject_Z (1000 * 2 ^ 44)) by (apply inject_Z_le; lia).
  assert (ET : inject_Z (1000 * 2 ^ 44) == 1000 * pow2 44).
  { rewrite pow2_Z by lia. rewrite <- (inject_Z_mult 1000). reflexivity. }
  pose proof (pow2_pos 44) as H44.
  assert (Hq0 : 0 < q) by lra.
  assert (Hq44 : q <= pow2 44) by lra.
  destruct (Qle_lt_or_eq _ _ Hq44) as [Hlt | Heq].
  - pose proof (floor_bounds q) as [Hf1 Hf2]. set (f := Qfloor q) in *.
    assert (Hf : (0 <= f <= 2 ^ 53)%Z).
    { split.
      - apply (Qfloor_resp_le 0 q). lra.
      - apply Z.le_trans with (2 ^ 44)%Z; [|lia].
        rewrite <- (Qfloor_Z (2 ^ 44)). apply Qfloor_resp_le.
        rewrite <- pow2_Z by lia. lra. }
    assert (Hz : (a < (f + 1) * 1000)%Z).
    { rewrite Zlt_Qlt, inject_Z_mult, inject_Z_plus.
      change (inject_Z 1000) with 1000. change (inject_Z 1) with 1. lra. }
    assert (Hz' : (a <= f * 1000 + 999)%Z) by lia.
    rewrite Zle_Qle, inject_Z_plus, inject_Z_mult in Hz'.
    change (inject_Z 1000) with 1000 in Hz'. change (inject_Z 999) with 999 in Hz'.
    apply floor_unique.
    + rewrite <- round_pos_eq by exact Hq0. apply round_ge_Z; assumption.
    + destruct (round_pos_error q) as [_ He].
      assert (Hu : (ulp_exp q - 1 <= -10)%Z).
      { pose proof (ilog2_lt q 44 Hq0 Hlt). unfold ulp_exp. lia. }
      pose proof (pow2_le _ _ Hu) as Hp.
      assert (E10 : pow2 (-10) == 1 # 1024) by reflexivity.
      rewrite inject_Z_plus. change (inject_Z 1) with 1. lra.
  - apply Qfloor_comp. apply (round_pos_exact q (2 ^ 44) 0).
    + assert (Ei : ilog2 q = 44%Z) by (apply ilog2_unique; [lra | rewrite Heq; apply pow2_lt; lia]).
      unfold ulp_exp. rewrite Ei. lia.
    + rewrite Heq, pow2_0, <- pow2_Z by lia. ring.
Qed.

Lemma truediv_1000_ceil_negative s : (- (1000 * 2 ^ 44) <= s < 0)%Z ->
  exists v, int_truediv s 1000 = Ok v /\
            ceil v = Qceiling (inject_Z s / inject_Z 1000).
Proof.
  intros Hs. set (r := inject_Z s / inject_Z 1000).
  pose proof (quotient_scaled s) as E. fold r in E.
  change (inject_Z 1000) with 1000 in E.
  assert (Hs0 : inject_Z s <= - (1)) by (apply (inject_Z_le s (-1)); lia).
  assert (Hr : r < 0) by lra.
  exists (round r). split.
  - apply int_truediv_finite.
    assert (2 ^ 60 < truediv_limit)%Z by reflexivity. lia.
  - unfold ceil, Qceiling. f_equal. rewrite round_neg_eq by exact Hr.
    rewrite (Qfloor_comp _ _ (Qopp_involutive (round_pos (- r)))).
    apply (round_pos_keeps_floor (- r) (- s)); [lia|].
    rewrite inject_Z_opp. lra.
Qed.

End SignedRounding.

(** Extra X1.  The note units scale with the note counts: multiplying
    [num_notes_consumed] (or [num_notes_created]) by an integer factor
    multiplies [notes_consumed_units] (or [notes_created_units]) by that
    factor and leaves the other three fields of the summary as they were;
    doubling a count doubles its units. *)
Theorem note_units_scale tm s c :
  calculate_computation_units tm = Ok s ->
  calculate_computation_units
    (mkTransactionMetrics (num_cycles tm) (c * num_notes_consumed tm)
       (num_notes_created tm) (created_public_notes_byte_size tm)
       (public_account_delta_byte_size tm))
  = Ok (mkComputationSummary (cycle_units s) (c * notes_consumed_units s)
          (notes_created_units s) (data_units s)) /\
  calculate_computation_units
    (mkTransactionMetrics (num_cycles tm) (num_notes_consumed tm)
       (c * num_notes_created tm) (created_public_notes_byte_size tm)
       (public_account_delta_byte_size tm))
  = Ok (mkComputationSummary (cycle_units s) (notes_consumed_units s)
          (c * notes_created_units s) (data_units s)).
Proof.
  intros E. destruct (calculate_computation_units_inv tm s E) as (cb & kb & Ec & Ek & ->).
  split.
  - rewrite (calculate_computation_units_ok _ cb kb).
    + cbn [num_notes_consumed num_notes_created cycle_units notes_consumed_units
           notes_created_units data_units]. f_equal. f_equal. ring.
    + rewrite <- Ec. apply cycle_bucket_ext. reflexivity.
    + rewrite <- Ek. apply kilo_bytes_ext. reflexivity.
  - rewrite (calculate_computation_units_ok _ cb kb).
    + cbn [num_notes_consumed num_notes_created cycle_units notes_consumed_units
           notes_created_units data_units]. f_equal. f_equal. ring.
    + rewrite <- Ec. apply cycle_bucket_ext. reflexivity.
    + rewrite <- Ek. apply kilo_bytes_ext. reflexivity.
Qed.

Lemma note_units_scale_witness :
  calculate_computation_units (mkTransactionMetrics 65536 (2 * 5) 5 6500 0)
  = Ok (mkComputationSummary 8000 (2 * 150) 250 105) /\
  calculate_computation_units (mkTransactionMetrics 65536 5 (2 * 5) 6500 0)
  = Ok (mkComputationSummary 8000 150 (2 * 250) 105).
Proof.
  apply (note_units_scale (mkTransactionMetrics 65536 5 5 6500 0)
           (mkComputationSummary 8000 150 250 105) 2).
  vm_compute. reflexivity.
Defined.

(** Extra X2.  [kilo_bytes()] fails exactly when the combined byte size has
    magnitude [1000 * (2^1024 - 2^970)] or more, and then with
    [OverflowError]; it raises nothing else, and below that magnitude it
    returns, for negative sizes too. *)
Theorem kilo_bytes_failure tm :
  (kilo_bytes tm = Raise OverflowError <-> truediv_limit <= Z.abs (public_bytes tm)) /\
  ((exists kb, kilo_bytes tm = Ok kb) <-> Z.abs (public_bytes tm) < truediv_limit) /\
  (forall e, kilo_bytes tm = Raise e -> e = OverflowError).
Proof.
  destruct (kilo_bytes_cases tm) as [[H [kb E]] | [H E]].
  - split; [|split].
    + split; [rewrite E; discriminate | lia].
    + split; [intros _; exact H | intros _; exists kb; exact E].
    + intros e. rewrite E. discriminate.
  - split; [|split].
    + split; [intros _; exact H | intros _; exact E].
    + split; [intros [kb E']; rewrite E in E'; discriminate | lia].
    + intros e. rewrite E. intros [= <-]. reflexivity.
Qed.

(** Extra X3.  The ways [calculate_computation_units] ends.  It raises
    [ValueError] exactly when [num_cycles <= 0], whatever the other fields
    are (the logarithm is taken first); it raises [OverflowError] exactly
    when [num_cycles > 0] and the combined byte size has magnitude
    [1000 * (2^1024 - 2^970)] or more; it never raises anything else; in all
    other cases it returns a summary. *)
Theorem calculate_computation_units_outcomes tm :
  (calculate_computation_units tm = Raise ValueError <-> num_cycles tm <= 0) /\
  (calculate_computation_units tm = Raise OverflowError <->
     0 < num_cycles tm /\ truediv_limit <= Z.abs (public_bytes tm)) /\
  ((exists s, calculate_computation_units tm = Ok s) <->
     0 < num_cycles tm /\ Z.abs (public_bytes tm) < truediv_limit) /\
  calculate_computation_units tm <> Raise ZeroDivisionError.
Proof.
  unfold calculate_computation_units.
  destruct (cycle_bucket_cases tm) as [[Hn Ec] | [Hn (cb & Ec & _)]]; rewrite Ec;
    cbn [bind];
    [|destruct (kilo_bytes_cases tm) as [[Hb [kb Ek]] | [Hb Ek]]; rewrite Ek;
      cbn [bind]];
    (split; [|split; [|split]]); try discriminate;
    (split; intros H);
    first [ discriminate | reflexivity | lia
          | destruct H as [s E]; discriminate
          | eexists; reflexivity
          | split; lia
          | destruct H; lia ].
Qed.

(** Extra X4.  For [num_cycles] in the documented range [2^10 .. 2^29],
    [cycle_bucket()] returns a bucket in [10 .. 29], as the comment on the
    method says. *)
Theorem cycle_bucket_documented_range tm :
  2 ^ 10 <= num_cycles tm <= 2 ^ 29 ->
  exists b, cycle_bucket tm = Ok b /\ 10 <= b <= 29.
Proof.
  intros H. exists (Z.log2_up (num_cycles tm)). split.
  - rewrite cycle_bucket_small by lia. rewrite ceil_log2_small by lia. reflexivity.
  - split.
    + change 10 with (Z.log2_up (2 ^ 10)). apply Z.log2_up_le_mono. lia.
    + change 29 with (Z.log2_up (2 ^ 29)). apply Z.log2_up_le_mono. lia.
Qed.

Lemma cycle_bucket_documented_range_witness :
  exists b, cycle_bucket (mkTransactionMetrics 123456 0 0 0 0) = Ok b /\ 10 <= b <= 29.
Proof.
  apply (cycle_bucket_documented_range (mkTransactionMetrics 123456 0 0 0 0)).
  cbn [num_cycles]. lia.
Defined.

Section BucketAccuracy.
Local Open Scope Q_scope.

Lemma ceil_le_Z v c : v <= inject_Z c -> (ceil v <= c)%Z.
Proof.
  intros H. unfold ceil. rewrite <- (Qceiling_Z c). apply Qceiling_resp_le, H.
Qed.

Lemma log2_large_le X k : (0 <= k <= 2 ^ 53)%Z -> 1 <= X -> X <= pow2 k ->
  log2_large X <= inject_Z k.
Proof.
  intros Hk H1 H. rewrite <- (log2_large_pow2 (pow2 k) k Hk) by reflexivity.
  apply log2_large_mono; assumption.
Qed.

Lemma math_log2_within_one n : (1 <= n)%Z -> (Z.log2 n < 2 ^ 53)%Z ->
  exists v, math_log2 n = Ok v /\
            inject_Z (Z.log2 n) <= v /\ v <= inject_Z (Z.log2 n + 1).
Proof.
  intros Hn Hk. pose proof (Z.log2_nonneg n) as Hk0.
  destruct (math_log2_cases n ltac:(lia)) as (v & Ev & Hv).
  exists v. split; [exact Ev|].
  assert (Hq : 0 < inject_Z n) by (apply (inject_Z_lt 0); lia).
  destruct (round_binade (inject_Z n) Hq) as [HX1 HX2].
  { rewrite ilog2_int by lia. lia. }
  rewrite ilog2_int in HX1, HX2 by lia.
  pose proof (round_int_ge_1 n Hn) as H1.
  set (X := round (inject_Z n)) in *. set (k := Z.log2 n) in *.
  destruct Hv as [[Ov ->] | [Ov Hv]].
  - split.
    + apply log2_ge1_lower; [lia | exact HX1].
    + apply log2_ge1_upper; [lia | exact H1 | exact HX2].
  - rewrite Hv. apply overflows_true_inv in Ov; [|lra].
    assert (Hk1 : (1024 <= k + 1)%Z) by (apply pow2_le_inv; lra).
    split.
    + apply log2_large_ge; [lia | exact HX1].
    + apply log2_large_le; [lia | exact H1 | exact HX2].
Qed.

End BucketAccuracy.

(** Extra X5.  [cycle_bucket()] is never off by more than one bucket, and
    never too high: for every [num_cycles >= 1] (of fewer than [2^53] bits)
    it lies between the floor and the ceiling of the base-2 logarithm of
    [num_cycles]. *)
Theorem cycle_bucket_within_one tm :
  1 <= num_cycles tm -> Z.log2 (num_cycles tm) < 2 ^ 53 ->
  exists b, cycle_bucket tm = Ok b /\
            Z.log2 (num_cycles tm) <= b <= Z.log2_up (num_cycles tm).
Proof.
  intros Hn Hk. pose proof (Z.log2_nonneg (num_cycles tm)) as Hk0.
  destruct (Z.log2_spec (num_cycles tm) ltac:(lia)) as [Hs1 Hs2].
  destruct (Z.eq_dec (num_cycles tm) (2 ^ Z.log2 (num_cycles tm))) as [E | N].
  - exists (Z.log2 (num_cycles tm)). split.
    + apply cycle_bucket_pow2; [lia | exact E].
    + split; [lia | apply Z.le_log2_log2_up].
  - destruct (math_log2_within_one _ Hn Hk) as (v & Ev & Hv1 & Hv2).
    exists (ceil v). unfold cycle_bucket. rewrite Ev. split; [reflexivity|].
    rewrite (Z.log2_up_unique (num_cycles tm) (Z.log2 (num_cycles tm) + 1)).
    + split; [apply ceil_ge, Hv1 | apply ceil_le_Z, Hv2].
    + lia.
    + replace (Z.pred (Z.log2 (num_cycles tm) + 1)) with (Z.log2 (num_cycles tm)) by lia.
      rewrite Z.add_1_r. lia.
Qed.

Lemma cycle_bucket_within_one_witness :
  exists b, cycle_bucket (mkTransactionMetrics (2 ^ 60 + 1) 0 0 0 0) = Ok b /\
            Z.log2 (2 ^ 60 + 1) <= b <= Z.log2_up (2 ^ 60 + 1).
Proof.
  apply (cycle_bucket_within_one (mkTransactionMetrics (2 ^ 60 + 1) 0 0 0 0)).
  - cbn [num_cycles]. lia.
  - vm_compute. reflexivity.
Defined.

(** Extra X6.  The cycle bucket is 0, and with it [cycle_units], only for
    [num_cycles = 1]: every [num_cycles >= 2] lands in a bucket of at least
    1. *)
Theorem cycle_bucket_zero_iff tm :
  0 < num_cycles tm ->
  (cycle_bucket tm = Ok 0 <-> num_cycles tm = 1) /\
  (2 <= num_cycles tm -> exists b, cycle_bucket tm = Ok b /\ 1 <= b).
Proof.
  intros Hn.
  assert (H2 : 2 <= num_cycles tm -> exists b, cycle_bucket tm = Ok b /\ 1 <= b).
  { intros H.
    destruct (cycle_bucket_mono (mkTransactionMetrics 2 0 0 0 0) tm)
      as (b & c & Eb & Ec & Hbc); [cbn [num_cycles]; lia|].
    rewrite (cycle_bucket_pow2 _ 1) in Eb by (try reflexivity; lia).
    injection Eb as <-. exists c. split; assumption. }
  split; [|exact H2]. split.
  - intros E. destruct (Z_le_gt_dec 2 (num_cycles tm)) as [H | H]; [|lia].
    destruct (H2 H) as (b & Eb & Hb). rewrite E in Eb. injection Eb as <-. lia.
  - intros E. apply (cycle_bucket_pow2 tm 0); [lia | exact E].
Qed.

Lemma cycle_bucket_zero_iff_witness :
  (cycle_bucket (mkTransactionMetrics 3 0 0 0 0) = Ok 0 <-> 3 = 1) /\
  (2 <= 3 -> exists b, cycle_bucket (mkTransactionMetrics 3 0 0 0 0) = Ok b /\ 1 <= b).
Proof.
  apply (cycle_bucket_zero_iff (mkTransactionMetrics 3 0 0 0 0)).
  cbn [num_cycles]. lia.
Defined.

Lemma kilo_bytes_exact tm : Z.abs (public_bytes tm) <= 1000 * 2 ^ 44 ->
  kilo_bytes tm = Ok (- ((- public_bytes tm) / 1000)).
Proof.
  intros H. rewrite <- quotient_ceiling_Z.
  destruct (Z_lt_le_dec (public_bytes tm) 0) as [Hneg | Hpos].
  - destruct (truediv_1000_ceil_negative (public_bytes tm)) as (v & Ev & Hv); [lia|].
    unfold kilo_bytes. fold (public_bytes tm). rewrite Ev. cbn [bind].
    unfold math_ceil. rewrite Hv. reflexivity.
  - destruct (truediv_1000_ceil (public_bytes tm)) as (v & Ev & Hv); [lia|].
    unfold kilo_bytes. fold (public_bytes tm). rewrite Ev. cbn [bind].
    unfold math_ceil. rewrite Hv. reflexivity.
Qed.

(** Extra X7.  Up to a magnitude of [1000 * 2^44] of the combined byte size,
    negative sizes included, [kilo_bytes()] is the integer ceiling of the
    size divided by 1000.  So a negative combined size is billed at zero or
    fewer kilobytes, at exactly 0 down to -999, and each further 1000 bytes
    add exactly one kilobyte. *)
Theorem kilo_bytes_integer_ceiling tm :
  Z.abs (public_bytes tm) <= 1000 * 2 ^ 44 ->
  kilo_bytes tm = Ok (- ((- public_bytes tm) / 1000)) /\
  (-1000 < public_bytes tm <= 0 -> kilo_bytes tm = Ok 0) /\
  (forall tm' kb, public_bytes tm' = public_bytes tm + 1000 ->
     Z.abs (public_bytes tm') <= 1000 * 2 ^ 44 ->
     kilo_bytes tm = Ok kb -> kilo_bytes tm' = Ok (kb + 1)).
Proof.
  intros H. pose proof (kilo_bytes_exact tm H) as E. split; [exact E|]. split.
  - intros Hs. rewrite E. f_equal.
    assert ((- public_bytes tm) / 1000 = 0) by (apply Z.div_small; lia). lia.
  - intros tm' kb Es H' Ek. rewrite E in Ek. injection Ek as <-.
    rewrite (kilo_bytes_exact tm' H'), Es. f_equal.
    replace (- (public_bytes tm + 1000)) with (- public_bytes tm + (-1) * 1000) by ring.
    rewrite Z.div_add by lia. ring.
Qed.

Lemma kilo_bytes_integer_ceiling_witness :
  kilo_bytes (mkTransactionMetrics 1024 0 0 (-2500) 0) = Ok (- ((- (-2500 + 0)) / 1000)).
Proof.
  apply (kilo_bytes_integer_ceiling (mkTransactionMetrics 1024 0 0 (-2500) 0)).
  vm_compute. discriminate.
Defined.

(** Extra X8.  On cycle counts up to [2^49] and combined byte sizes of
    magnitude up to [1000 * 2^44] the float arithmetic of the fee model is
    exact: the summary is [500 * ceil(log2 num_cycles)],
    [30 * num_notes_consumed], [50 * num_notes_created] and
    [15 * ceil(bytes / 1000)] in integer arithmetic, and the total is their
    sum. *)
Theorem fee_in_integer_arithmetic tm :
  1 <= num_cycles tm <= 2 ^ 49 -> Z.abs (public_bytes tm) <= 1000 * 2 ^ 44 ->
  exists s,
    calculate_computation_units tm = Ok s /\
    cycle_units s = 500 * Z.log2_up (num_cycles tm) /\
    notes_consumed_units s = 30 * num_notes_consumed tm /\
    notes_created_units s = 50 * num_notes_created tm /\
    data_units s = 15 * (- ((- public_bytes tm) / 1000)) /\
    total_computation_units s =
      500 * Z.log2_up (num_cycles tm) + 30 * num_notes_consumed tm
      + 50 * num_notes_created tm + 15 * (- ((- public_bytes tm) / 1000)).
Proof.
  intros Hn Hb.
  assert (Ec : cycle_bucket tm = Ok (Z.log2_up (num_cycles tm))).
  { rewrite cycle_bucket_small by lia. rewrite ceil_log2_small by lia. reflexivity. }
  pose proof (kilo_bytes_exact tm Hb) as Ek.
  eexists. split; [apply (calculate_computation_units_ok tm _ _ Ec Ek)|].
  unfold total_computation_units.
  cbn [cycle_units notes_consumed_units notes_created_units data_units].
  repeat split; ring.
Qed.

Lemma fee_in_integer_arithmetic_witness :
  exists s,
    calculate_computation_units (mkTransactionMetrics 1000000 7 3 1300 900) = Ok s /\
    cycle_units s = 500 * Z.log2_up 1000000 /\
    notes_consumed_units s = 30 * 7 /\
    notes_created_units s = 50 * 3 /\
    data_units s = 15 * (- ((- (1300 + 900)) / 1000)) /\
    total_computation_units s =
      500 * Z.log2_up 1000000 + 30 * 7 + 50 * 3 + 15 * (- ((- (1300 + 900)) / 1000)).
Proof.
  apply (fee_in_integer_arithmetic (mkTransactionMetrics 1000000 7 3 1300 900)).
  - cbn [num_cycles]. lia.
  - vm_compute. discriminate.
Defined.

(** Extra X9.  [kilo_bytes()] is monotone in the combined byte size over
    the whole range on which it returns, negative sizes included. *)
Theorem kilo_bytes_monotone tm tm' :
  public_bytes tm <= public_bytes tm' ->
  Z.abs (public_bytes tm) < truediv_limit ->
  Z.abs (public_bytes tm') < truediv_limit ->
  exists kb kb', kilo_bytes tm = Ok kb /\ kilo_bytes tm' = Ok kb' /\ kb <= kb'.
Proof.
  intros Hle Hl Hl'. unfold public_bytes in *.
  eexists _, _. split; [apply kilo_bytes_finite; exact Hl|].
  split; [apply kilo_bytes_finite; exact Hl'|].
  apply ceil_mono, round_mono_signed, quotient_mono, Hle.
Qed.

Lemma kilo_bytes_monotone_witness :
  exists kb kb', kilo_bytes (mkTransactionMetrics 1024 0 0 (-4100) 0) = Ok kb /\
                 kilo_bytes (mkTransactionMetrics 1024 0 0 250 3) = Ok kb' /\ kb <= kb'.
Proof.
  apply (kilo_bytes_monotone (mkTransactionMetrics 1024 0 0 (-4100) 0)
                             (mkTransactionMetrics 1024 0 0 250 3));
    vm_compute; first [discriminate | reflexivity].
Defined.

(* ================================================================== *)
(** ** print_markdown_table

    A Python string is a sequence of Unicode code points (up to [0x10FFFF],
    lone surrogates included).  The cells and the headers of a table are
    strings, on which [str] is the identity, as in the script's own call.
    Printing is modelled by the text written to [sys.stdout], the newline
    that [print] appends included.  [sys.stdout] is a UTF-8 text stream, as
    Python opens it; its error handler is a parameter of the model.  On such
    tables the function raises [IndexError], when a row has no cell under a
    header, or [UnicodeEncodeError], when the stream cannot encode the text,
    and nothing else.  (The f-string of the last statement holds a backslash
    inside a replacement field, which Python accepts from version 3.12 on.) *)

From Stdlib Require Import List.
Import ListNotations.

Module MarkdownTable.
Local Open Scope nat_scope.
Local Open Scope list_scope.

Definition char : Set := N.
Definition str : Set := list char.

Definition SPACE : char := 32%N.
Definition DASH : char := 45%N.
Definition BAR : char := 124%N.
Definition NEWLINE : char := 10%N.

(** The literals [" | "], ["| "], [" |\n"] and ["\n"]. *)
Definition column_separator : str := [SPACE; BAR; SPACE].
Definition line_start : str := [BAR; SPACE].
Definition line_end : str := [SPACE; BAR; NEWLINE].

Inductive outcome : Set :=
  | Printed (text : str)
  | IndexError
  | UnicodeEncodeError.

(** The error handler of [sys.stdout]: [strict], or [surrogateescape], which
    Python selects under the C locale. *)
Inductive error_handler : Set :=
  | strict
  | surrogateescape.

(** The surrogate code points [U+D800 .. U+DFFF], which UTF-8 does not
    encode, and among them [U+DC80 .. U+DCFF], which [surrogateescape] writes
    as the bytes [0x80 .. 0xFF]. *)
Definition is_surrogate (c : char) : bool := (55296 <=? c)%N && (c <=? 57343)%N.
Definition is_escaped_byte (c : char) : bool := (56448 <=? c)%N && (c <=? 56575)%N.

Definition encodes (errors : error_handler) (c : char) : bool :=
  match errors with
  | strict => negb (is_surrogate c)
  | surrogateescape => negb (is_surrogate c) || is_escaped_byte c
  end.

Definition encodable (errors : error_handler) (text : str) : bool :=
  forallb (encodes errors) text.

(** [str.ljust(width)]: padded with spaces on the right up to [width],
    unchanged when it is already that long. *)
Definition ljust (s : str) (width : nat) : str :=
  s ++ repeat SPACE (width - length s).

(** [sep.join(parts)]. *)
Fixpoint join (sep : str) (parts : list str) : str :=
  match parts with
  | [] => []
  | [p] => p
  | p :: rest => p ++ sep ++ join sep rest
  end.

(** The characters at which [str.splitlines] breaks a line. *)
Definition is_line_boundary (c : char) : bool :=
  existsb (N.eqb c) [10; 11; 12; 13; 28; 29; 30; 133; 8232; 8233]%N.

(** [str.splitlines()]: the lines without their boundaries; a carriage
    return followed by a line feed is one boundary; no empty line is
    reported after the last boundary.  [line] holds the current line,
    reversed. *)
Fixpoint splitlines_from (line : str) (s : str) : list str :=
  match s with
  | [] => match line with [] => [] | _ => [rev line] end
  | c :: rest =>
      if N.eqb c 13 then
        match rest with
        | c' :: rest' =>
            if N.eqb c' 10 then rev line :: splitlines_from [] rest'
            else rev line :: splitlines_from [] rest
        | [] => rev line :: splitlines_from [] rest
        end
      else if is_line_boundary c then rev line :: splitlines_from [] rest
      else splitlines_from (c :: line) rest
  end.

Definition splitlines (s : str) : list str := splitlines_from [] s.

(** A comprehension whose element expression may raise: the elements in
    order, or the failure of the first one that fails. *)
Fixpoint traverse {A B : Type} (f : A -> option B) (l : list A) : option (list B) :=
  match l with
  | [] => Some []
  | a :: rest =>
      match f a with
      | None => None
      | Some b =>
          match traverse f rest with
          | None => None
          | Some bs => Some (b :: bs)
          end
      end
  end.

(** [max(len(str(row[i])) for row in rows)], continued from [acc]; [None]
    when a row has no cell [i]. *)
Fixpoint max_len_at (i : nat) (acc : nat) (rows : list (list str)) : option nat :=
  match rows with
  | [] => Some acc
  | row :: rest =>
      match nth_error row i with
      | None => None
      | Some cell => max_len_at i (Nat.max acc (length cell)) rest
      end
  end.

(** Width of column [i]: the maximum over [[headers] + data]. *)
Definition col_width (headers : list str) (data : list (list str)) (i : nat)
  : option nat :=
  match nth_error headers i with
  | None => None
  | Some h => max_len_at i (length h) data
  end.

Definition col_widths (headers : list str) (data : list (list str))
  : option (list nat) :=
  traverse (col_width headers data) (seq 0 (length headers)).

(** [" | ".join(str(row[i]).ljust(col_widths[i]) for i in range(n))]. *)
Definition format_row (n : nat) (widths : list nat) (row : list str) : option str :=
  match traverse (fun i =>
                    match nth_error row i, nth_error widths i with
                    | Some cell, Some w => Some (ljust cell w)
                    | _, _ => None
                    end) (seq 0 n) with
  | Some cells => Some (join column_separator cells)
  | None => None
  end.

(** [" | ".join("-" * col_widths[i] for i in range(n))]. *)
Definition format_separator (n : nat) (widths : list nat) : option str :=
  match traverse (fun i =>
                    match nth_error widths i with
                    | Some w => Some (repeat DASH w)
                    | None => None
                    end) (seq 0 n) with
  | Some cells => Some (join column_separator cells)
  | None => None
  end.

(** One printed line: ["| " + row + " |\n"]. *)
Definition table_line (row : str) : str := line_start ++ row ++ line_end.

(** [print(text)] on the stream [stdout]: the text and a newline are
    written, or nothing is when a character of the text cannot be encoded. *)
Definition print (stdout : error_handler) (text : str) : outcome :=
  if encodable stdout text then Printed (text ++ [NEWLINE]) else UnicodeEncodeError.

Definition print_markdown_table (stdout : error_handler)
    (data : list (list str)) (headers : list str) : outcome :=
  let n := length headers in
  match col_widths headers data with
  | None => IndexError
  | Some widths =>
      match format_row n widths headers with
      | None => IndexError
      | Some header_row =>
          match format_separator n widths with
          | None => IndexError
          | Some separator_row =>
              match traverse (format_row n widths) data with
              | None => IndexError
              | Some rows =>
                  let data_rows := join [NEWLINE] rows in
                  print stdout
                    (table_line header_row ++ table_line separator_row
                     ++ concat (map table_line (splitlines data_rows)))
              end
          end
      end
  end.

End MarkdownTable.
Export MarkdownTable.

Module MarkdownTableFacts.
Local Open Scope nat_scope.
Local Open Scope list_scope.

(** *** Comprehensions *)

Lemma traverse_length {A B} (f : A -> option B) l l' :
  traverse f l = Some l' -> length l' = length l.
Proof.
  revert l'. induction l as [|a l IH]; intros l' E; simpl in E.
  - injection E as <-. reflexivity.
  - destruct (f a); [|discriminate]. destruct (traverse f l); [|discriminate].
    injection E as <-. simpl. f_equal. apply IH. reflexivity.
Qed.

Lemma traverse_ext {A B} (f g : A -> option B) l :
  (forall a, In a l -> f a = g a) -> traverse f l = traverse g l.
Proof.
  induction l as [|a l IH]; intros H; simpl; [reflexivity|].
  rewrite (H a (or_introl eq_refl)), IH; [reflexivity|].
  intros b Hb. apply H. right. exact Hb.
Qed.

Lemma traverse_map {A B C} (f : B -> option C) (g : A -> B) l :
  traverse f (map g l) = traverse (fun a => f (g a)) l.
Proof.
  induction l as [|a l IH]; simpl; [reflexivity|]. rewrite IH. reflexivity.
Qed.

Lemma traverse_none {A B} (f : A -> option B) l :
  traverse f l = None <-> exists a, In a l /\ f a = None.
Proof.
  induction l as [|a l IH]; simpl.
  - split; [discriminate | intros (a & [] & _)].
  - destruct (f a) as [y|] eqn:Ea.
    + destruct (traverse f l) as [ys|] eqn:Et.
      * split; [discriminate|]. intros (x & [<- | Hx] & Ex); [congruence|].
        assert (C : Some ys = None) by (apply IH; exists x; split; assumption).
        discriminate C.
      * split; [|reflexivity]. intros _.
        destruct (proj1 IH eq_refl) as (x & Hx & Ex).
        exists x. split; [right; exact Hx | exact Ex].
    + split; [|reflexivity]. intros _. exists a. split; [left; reflexivity | exact Ea].
Qed.

Lemma traverse_some {A B} (f : A -> option B) (g : A -> B) l :
  (forall a, In a l -> f a = Some (g a)) -> traverse f l = Some (map g l).
Proof.
  induction l as [|a l IH]; intros H; simpl; [reflexivity|].
  rewrite (H a (or_introl eq_refl)), IH; [reflexivity|].
  intros b Hb. apply H. right. exact Hb.
Qed.

Lemma traverse_nth_error {A B} (f : A -> option B) l l' :
  traverse f l = Some l' ->
  forall i a, nth_error l i = Some a ->
  exists b, f a = Some b /\ nth_error l' i = Some b.
Proof.
  revert l'. induction l as [|x l IH]; intros l' E i a Hi.
  - destruct i; discriminate.
  - simpl in E. destruct (f x) as [b|] eqn:Ex; [|discriminate].
    destruct (traverse f l) as [bs|] eqn:Et; [|discriminate].
    injection E as <-. destruct i as [|i]; simpl in Hi.
    + injection Hi as <-. exists b. split; [exact Ex | reflexivity].
    + apply (IH bs eq_refl i a Hi).
Qed.

Lemma nth_error_seq_0 n i : i < n -> nth_error (seq 0 n) i = Some i.
Proof.
  intros H. rewrite (nth_error_nth' (seq 0 n) 0) by (rewrite length_seq; exact H).
  rewrite seq_nth by exact H. reflexivity.
Qed.

(** A comprehension over [range(n)], seen index by index. *)
Lemma traverse_range {B} (f : nat -> option B) n l :
  traverse f (seq 0 n) = Some l ->
  length l = n /\ forall i, i < n -> exists b, f i = Some b /\ nth_error l i = Some b.
Proof.
  intros E. split.
  - rewrite (traverse_length _ _ _ E). apply length_seq.
  - intros i Hi. apply (traverse_nth_error f _ _ E i i). apply nth_error_seq_0, Hi.
Qed.

(** *** Column widths *)

Lemma max_len_at_none i acc rows :
  max_len_at i acc rows = None <-> exists row, In row rows /\ length row <= i.
Proof.
  revert acc. induction rows as [|row rows IH]; intros acc; simpl.
  - split; [discriminate | intros (r & [] & _)].
  - destruct (nth_error row i) as [c|] eqn:E.
    + rewrite IH. split.
      * intros (r & Hr & Hl). exists r. split; [right; exact Hr | exact Hl].
      * intros (r & [<- | Hr] & Hl).
        -- apply nth_error_None in Hl. congruence.
        -- exists r. split; assumption.
    + split; [|reflexivity]. intros _. exists row.
      split; [left; reflexivity | apply nth_error_None, E].
Qed.

Lemma max_len_at_bound i acc rows w :
  max_len_at i acc rows = Some w ->
  acc <= w /\ forall row c, In row rows -> nth_error row i = Some c -> length c <= w.
Proof.
  revert acc. induction rows as [|row rows IH]; intros acc E; simpl in E.
  - injection E as <-. split; [reflexivity | intros row c []].
  - destruct (nth_error row i) as [c0|] eqn:E0; [|discriminate].
    destruct (IH _ E) as [H1 H2]. split; [lia|].
    intros r c [<- | Hr] Hc.
    + rewrite E0 in Hc. injection Hc as <-. lia.
    + apply (H2 r c Hr Hc).
Qed.

Lemma col_widths_none headers data :
  col_widths headers data = None <->
  exists row, In row data /\ length row < length headers.
Proof.
  unfold col_widths. rewrite traverse_none. split.
  - intros (i & Hi & E). apply in_seq in Hi. unfold col_width in E.
    destruct (nth_error headers i) as [h|] eqn:Eh.
    + apply max_len_at_none in E. destruct E as (row & Hr & Hl).
      exists row. split; [exact Hr | lia].
    + apply nth_error_None in Eh. lia.
  - intros (row & Hr & Hl). exists (length row). split; [apply in_seq; lia|].
    unfold col_width. destruct (nth_error headers (length row)) as [h|]; [|reflexivity].
    apply max_len_at_none. exists row. split; [exact Hr | reflexivity].
Qed.

(** Every cell of column [i], the header included, fits the width of the
    column. *)
Lemma col_widths_bound headers data ws :
  col_widths headers data = Some ws ->
  length ws = length headers /\
  forall i w row c, nth_error ws i = Some w -> In row (headers :: data) ->
    nth_error row i = Some c -> length c <= w.
Proof.
  unfold col_widths. intros E. destruct (traverse_range _ _ _ E) as [Hl Hn].
  split; [exact Hl|]. intros i w row c Hw Hr Hc.
  assert (Hi : i < length headers).
  { rewrite <- Hl. apply nth_error_Some. congruence. }
  destruct (Hn i Hi) as (w' & Ew & Hw'). rewrite Hw in Hw'. injection Hw' as <-.
  unfold col_width in Ew. destruct (nth_error headers i) as [h|] eqn:Eh; [|discriminate].
  destruct (max_len_at_bound _ _ _ _ Ew) as [H1 H2].
  destruct Hr as [<- | Hr].
  - rewrite Eh in Hc. injection Hc as <-. exact H1.
  - apply (H2 row c Hr Hc).
Qed.

(** *** Padding and joining *)

(** A string without a character at which [str.splitlines] breaks. *)
Definition clean (s : str) : Prop := Forall (fun c => is_line_boundary c = false) s.




Lemma join_cons sep p q rest :
  join sep (p :: q :: rest) = p ++ sep ++ join sep (q :: rest).
Proof. reflexivity. Qed.





(** The text of a row, of the headers and of the separator, given the
    widths: cell after cell, without the failures of indexing. *)
Definition row_text (n : nat) (ws : list nat) (row : list str) : str :=
  join column_separator (map (fun i => ljust (nth i row []) (nth i ws 0)) (seq 0 n)).

Definition separator_text (n : nat) (ws : list nat) : str :=
  join column_separator (map (fun i => repeat DASH (nth i ws 0)) (seq 0 n)).

Lemma format_row_eq n ws row : length ws = n -> n <= length row ->
  format_row n ws row = Some (row_text n ws row).
Proof.
  intros Hw Hr. unfold format_row, row_text.
  rewrite (traverse_some _ (fun i => ljust (nth i row []) (nth i ws 0))); [reflexivity|].
  intros i Hi. apply in_seq in Hi.
  rewrite (nth_error_nth' row []) by lia. rewrite (nth_error_nth' ws 0) by lia.
  reflexivity.
Qed.

Lemma format_row_short n ws row : length row < n -> format_row n ws row = None.
Proof.
  intros H. unfold format_row.
  destruct (traverse _ (seq 0 n)) as [cells|] eqn:E; [|reflexivity].
  exfalso. assert (N : traverse
      (fun i => match nth_error row i, nth_error ws i with
                | Some cell, Some w => Some (ljust cell w)
                | _, _ => None
                end) (seq 0 n) = None); [|congruence].
  apply traverse_none. exists (length row). split; [apply in_seq; lia|].
  rewrite (proj2 (nth_error_None row (length row))) by lia. reflexivity.
Qed.

Lemma format_separator_eq n ws : length ws = n ->
  format_separator n ws = Some (separator_text n ws).
Proof.
  intros Hw. unfold format_separator, separator_text.
  rewrite (traverse_some _ (fun i => repeat DASH (nth i ws 0))); [reflexivity|].
  intros i Hi. apply in_seq in Hi.
  rewrite (nth_error_nth' ws 0) by lia. reflexivity.
Qed.






(** *** Lines *)

Lemma clean_not_cr c : is_line_boundary c = false -> N.eqb c 13 = false.
Proof.
  intros H. destruct (N.eqb_spec c 13) as [-> | _]; [discriminate H | reflexivity].
Qed.

Lemma splitlines_from_line line s t : clean s ->
  splitlines_from line (s ++ NEWLINE :: t) = (rev line ++ s) :: splitlines_from [] t.
Proof.
  intros H. revert line. induction H as [|c s Hc Hs IH]; intros line.
  - simpl. rewrite app_nil_r. reflexivity.
  - simpl. rewrite (clean_not_cr c Hc), Hc, IH. simpl.
    rewrite <- app_assoc. reflexivity.
Qed.



(** Empty lines are reported only where a boundary follows: of [k] empty
    rows joined with newlines, [k - 1] come back. *)
Lemma splitlines_join_empty k :
  splitlines (join [NEWLINE] (repeat [] k)) = repeat [] (k - 1).
Proof.
  destruct k as [|k]; [reflexivity|].
  replace (S k - 1) with k by lia.
  induction k as [|k IH]; [reflexivity|].
  change (repeat (@nil char) (S (S k))) with ([] :: [] :: repeat (@nil char) k).
  rewrite join_cons. unfold splitlines.
  change ([] ++ [NEWLINE] ++ join [NEWLINE] ([] :: repeat [] k))
    with ([] ++ NEWLINE :: join [NEWLINE] (repeat [] (S k))).
  rewrite (splitlines_from_line [] [] _ (Forall_nil _)).
  change (repeat (@nil char) (S k)) with ([] :: repeat (@nil char) k) at 2.
  f_equal. exact IH.
Qed.

(** *** The printed table *)

(** The characters that both error handlers encode. *)
Lemma encodes_not_surrogate errors c : is_surrogate c = false -> encodes errors c = true.
Proof. intros H. destruct errors; simpl; rewrite H; reflexivity. Qed.

Lemma line_boundary_not_surrogate c : is_line_boundary c = true -> is_surrogate c = false.
Proof.
  intros H. unfold is_line_boundary in H. apply existsb_exists in H.
  destruct H as (k & Hk & E). apply N.eqb_eq in E. subst k. simpl in Hk.
  repeat (destruct Hk as [<- | Hk]; [reflexivity|]). contradiction.
Qed.

Lemma encodable_cons errors c s :
  encodable errors (c :: s) = encodes errors c && encodable errors s.
Proof. reflexivity. Qed.

Lemma encodable_app errors a b :
  encodable errors (a ++ b) = encodable errors a && encodable errors b.
Proof. apply forallb_app. Qed.

Lemma encodable_rev errors s : encodable errors (rev s) = encodable errors s.
Proof.
  induction s as [|c s IH]; [reflexivity|].
  simpl rev. rewrite encodable_app, IH, !encodable_cons. simpl.
  rewrite andb_true_r. apply andb_comm.
Qed.

Lemma encodable_repeat errors c k : is_surrogate c = false ->
  encodable errors (repeat c k) = true.
Proof.
  intros H. induction k as [|k IH]; [reflexivity|].
  simpl repeat. rewrite encodable_cons, IH, (encodes_not_surrogate errors c H).
  reflexivity.
Qed.

Lemma encodable_ljust errors c w : encodable errors (ljust c w) = encodable errors c.
Proof.
  unfold ljust. rewrite encodable_app, encodable_repeat by reflexivity.
  apply andb_true_r.
Qed.

Lemma forallb_over_map {A B} (f : B -> bool) (g : A -> B) l :
  forallb f (map g l) = forallb (fun a => f (g a)) l.
Proof. induction l as [|a l IH]; [reflexivity|]. simpl. rewrite IH. reflexivity. Qed.

Lemma forallb_pointwise {A} (f g : A -> bool) l :
  (forall a, f a = g a) -> forallb f l = forallb g l.
Proof.
  intros H. induction l as [|a l IH]; [reflexivity|]. simpl. rewrite H, IH. reflexivity.
Qed.

Lemma forallb_false {A} (f : A -> bool) l :
  forallb f l = false -> exists a, In a l /\ f a = false.
Proof.
  induction l as [|a l IH]; [discriminate|]. simpl.
  destruct (f a) eqn:E.
  - intros H. destruct (IH H) as (b & Hb & Fb). exists b. split; [right; exact Hb | exact Fb].
  - intros _. exists a. split; [left; reflexivity | exact E].
Qed.

Lemma encodable_join errors sep l : encodable errors sep = true ->
  encodable errors (join sep l) = forallb (encodable errors) l.
Proof.
  intros Hs. induction l as [|p l IH]; [reflexivity|].
  destruct l as [|q l].
  - simpl. rewrite andb_true_r. reflexivity.
  - rewrite join_cons, !encodable_app, Hs, IH. reflexivity.
Qed.

Lemma encodable_concat errors l :
  encodable errors (concat l) = forallb (encodable errors) l.
Proof.
  induction l as [|p l IH]; [reflexivity|].
  simpl concat. rewrite encodable_app, IH. reflexivity.
Qed.

Lemma encodable_table_line errors r :
  encodable errors (table_line r) = encodable errors r.
Proof.
  unfold table_line. rewrite !encodable_app.
  change (encodable errors line_start) with (encodes errors BAR && (encodes errors SPACE && true)).
  change (encodable errors line_end)
    with (encodes errors SPACE && (encodes errors BAR && (encodes errors NEWLINE && true))).
  rewrite !encodes_not_surrogate by reflexivity. simpl. apply andb_true_r.
Qed.

Lemma encodable_row_text errors n ws row :
  encodable errors (row_text n ws row)
  = forallb (fun i => encodable errors (nth i row [])) (seq 0 n).
Proof.
  unfold row_text. rewrite encodable_join.
  - rewrite forallb_over_map. apply forallb_pointwise. intros i. apply encodable_ljust.
  - change (encodable errors column_separator)
      with (encodes errors SPACE && (encodes errors BAR && (encodes errors SPACE && true))).
    rewrite !encodes_not_surrogate by reflexivity. reflexivity.
Qed.

Lemma encodable_separator_text errors n ws :
  encodable errors (separator_text n ws) = true.
Proof.
  unfold separator_text. rewrite encodable_join.
  - rewrite forallb_over_map. apply forallb_forall. intros i _.
    apply encodable_repeat. reflexivity.
  - change (encodable errors column_separator)
      with (encodes errors SPACE && (encodes errors BAR && (encodes errors SPACE && true))).
    rewrite !encodes_not_surrogate by reflexivity. reflexivity.
Qed.

(** Splitting at line boundaries loses no character that might not be
    encoded. *)
Lemma encodable_splitlines_from errors k : forall s line, length s <= k ->
  forallb (encodable errors) (splitlines_from line s)
  = encodable errors line && encodable errors s.
Proof.
  induction k as [|k IH]; intros s line Hk.
  - destruct s; [|simpl in Hk; lia]. simpl.
    destruct line as [|a line]; [reflexivity|].
    cbn [forallb]. rewrite encodable_rev, !andb_true_r. reflexivity.
  - destruct s as [|c rest].
    + simpl. destruct line as [|a line]; [reflexivity|].
      cbn [forallb]. rewrite encodable_rev, !andb_true_r. reflexivity.
    + simpl in Hk. cbn [splitlines_from].
      destruct (N.eqb_spec c 13) as [-> | Hc].
      * assert (E13 : encodes errors 13%N = true)
          by (apply encodes_not_surrogate; reflexivity).
        destruct rest as [|c' rest'].
        { cbn [forallb]. rewrite encodable_rev, IH by (simpl; lia).
          rewrite !encodable_cons, E13. reflexivity. }
        destruct (N.eqb_spec c' 10) as [-> | Hc'].
        { cbn [forallb]. rewrite encodable_rev, IH by (simpl in Hk; lia).
          rewrite !encodable_cons, E13.
          rewrite (encodes_not_surrogate errors 10%N) by reflexivity. reflexivity. }
        { cbn [forallb]. rewrite encodable_rev, IH by (simpl in Hk |- *; lia).
          rewrite !encodable_cons, E13. reflexivity. }
      * destruct (is_line_boundary c) eqn:Eb.
        { cbn [forallb]. rewrite encodable_rev, IH by lia.
          rewrite !encodable_cons.
          rewrite (encodes_not_surrogate errors c (line_boundary_not_surrogate c Eb)).
          reflexivity. }
        { rewrite IH by lia. rewrite !encodable_cons.
          destruct (encodes errors c), (encodable errors line), (encodable errors rest);
            reflexivity. }
Qed.

Lemma encodable_splitlines errors s :
  forallb (encodable errors) (splitlines s) = encodable errors s.
Proof.
  unfold splitlines. rewrite (encodable_splitlines_from errors (length s)) by lia.
  reflexivity.
Qed.

(** Whether every cell under one of the first [n] headers can be encoded. *)
Definition cells_encodable (errors : error_handler) (n : nat) (rows : list (list str))
  : bool :=
  forallb (fun row => forallb (fun i => encodable errors (nth i row [])) (seq 0 n)) rows.

Lemma cells_encodable_true errors n rows :
  cells_encodable errors n rows = true <->
  forall row i, In row rows -> i < n -> encodable errors (nth i row []) = true.
Proof.
  unfold cells_encodable. rewrite forallb_forall. split.
  - intros H row i Hr Hi. specialize (H row Hr). rewrite forallb_forall in H.
    apply H, in_seq. lia.
  - intros H row Hr. apply forallb_forall. intros i Hi. apply in_seq in Hi.
    apply H; [exact Hr | lia].
Qed.

Lemma cells_encodable_false errors n rows :
  cells_encodable errors n rows = false <->
  exists row i, In row rows /\ i < n /\ encodable errors (nth i row []) = false.
Proof.
  split.
  - intros H. apply forallb_false in H. destruct H as (row & Hr & H).
    apply forallb_false in H. destruct H as (i & Hi & H). apply in_seq in Hi.
    exists row, i. split; [exact Hr|]. split; [lia | exact H].
  - intros (row & i & Hr & Hi & H).
    destruct (cells_encodable errors n rows) eqn:E; [|reflexivity].
    rewrite (proj1 (cells_encodable_true errors n rows) E row i Hr Hi) in H.
    discriminate.
Qed.

(** The text of a table can be encoded exactly when the headers and the
    cells under them can. *)
Lemma table_text_encodable errors n ws headers data :
  encodable errors
    (table_line (row_text n ws headers) ++ table_line (separator_text n ws)
     ++ concat (map table_line
                  (splitlines (join [NEWLINE] (map (row_text n ws) data)))))
  = cells_encodable errors n (headers :: data).
Proof.
  rewrite !encodable_app, !encodable_table_line, encodable_separator_text.
  rewrite encodable_concat, forallb_over_map.
  rewrite (forallb_pointwise _ (encodable errors)) by (intros r; apply encodable_table_line).
  rewrite encodable_splitlines, encodable_join
    by (apply (encodable_repeat errors NEWLINE 1); reflexivity).
  rewrite forallb_over_map. unfold cells_encodable. cbn [forallb].
  rewrite encodable_row_text. f_equal.
  apply forallb_pointwise. intros row. apply encodable_row_text.
Qed.

(** With no row shorter than the headers, indexing does not fail, and the
    text handed to [print] is assembled from the texts of the rows. *)
Lemma print_markdown_table_printed stdout data headers :
  (forall row, In row data -> length headers <= length row) ->
  exists ws,
    col_widths headers data = Some ws /\ length ws = length headers /\
    print_markdown_table stdout data headers =
      print stdout
        (table_line (row_text (length headers) ws headers)
         ++ table_line (separator_text (length headers) ws)
         ++ concat (map table_line
                      (splitlines (join [NEWLINE]
                         (map (row_text (length headers) ws) data))))).
Proof.
  intros H.
  destruct (col_widths headers data) as [ws|] eqn:E.
  - destruct (col_widths_bound _ _ _ E) as [Hl _].
    exists ws. split; [reflexivity|]. split; [exact Hl|].
    unfold print_markdown_table. rewrite E.
    rewrite format_row_eq by (try exact Hl; lia).
    rewrite format_separator_eq by exact Hl.
    rewrite (traverse_some _ (row_text (length headers) ws)); [reflexivity|].
    intros row Hr. apply format_row_eq; [exact Hl | apply H, Hr].
  - apply col_widths_none in E. destruct E as (row & Hr & Hlt).
    specialize (H row Hr). lia.
Qed.

Lemma print_markdown_table_short stdout data headers row :
  In row data -> length row < length headers ->
  print_markdown_table stdout data headers = IndexError.
Proof.
  intros Hr Hl. unfold print_markdown_table.
  rewrite (proj2 (col_widths_none headers data)); [reflexivity|].
  exists row. split; assumption.
Qed.

Lemma short_row_dec (data : list (list str)) n :
  {forall row, In row data -> n <= length row} +
  {exists row, In row data /\ length row < n}.
Proof.
  induction data as [|row data IH].
  - left. intros row [].
  - destruct (le_lt_dec n (length row)) as [Hle | Hlt].
    + destruct IH as [IH | IH].
      * left. intros r [<- | Hr]; [exact Hle | apply IH, Hr].
      * right. destruct IH as (r & Hr & Hl). exists r. split; [right; exact Hr | exact Hl].
    + right. exists row. split; [left; reflexivity | exact Hlt].
Qed.




Lemma row_text_no_columns (data : list (list str)) :
  map (row_text 0 []) data = repeat [] (length data).
Proof. induction data as [|row data IH]; [reflexivity|]. simpl. f_equal. exact IH. Qed.

Lemma max_len_at_firstn n i acc data : i < n ->
  max_len_at i acc (map (firstn n) data) = max_len_at i acc data.
Proof.
  intros Hi. revert acc. induction data as [|row data IH]; intros acc; [reflexivity|].
  simpl. rewrite nth_error_firstn.
  destruct (Nat.ltb_spec i n) as [_ | C]; [|lia].
  destruct (nth_error row i); [apply IH | reflexivity].
Qed.

Lemma format_row_firstn n ws row :
  format_row n ws (firstn n row) = format_row n ws row.
Proof.
  unfold format_row.
  rewrite (traverse_ext _ (fun i =>
             match nth_error row i, nth_error ws i with
             | Some cell, Some w => Some (ljust cell w)
             | _, _ => None
             end)); [reflexivity|].
  intros i Hi. apply in_seq in Hi. rewrite nth_error_firstn.
  destruct (Nat.ltb_spec i n) as [_ | C]; [reflexivity | lia].
Qed.

End MarkdownTableFacts.
Export MarkdownTableFacts.

(** The model on sample tables: a lone surrogate in a cell, under either
    error handler; a surrogate that [surrogateescape] writes as a byte; a
    short row, which fails before anything is encoded. *)
Example print_markdown_table_samples :
  print_markdown_table strict [[[120]]]%N [[104]]%N
  = Printed [124; 32; 104; 32; 124; 10; 124; 32; 45; 32; 124; 10;
             124; 32; 120; 32; 124; 10; 10]%N /\
  print_markdown_table strict [[[55296]]]%N [[104]]%N = UnicodeEncodeError /\
  print_markdown_table surrogateescape [[[55296]]]%N [[104]]%N = UnicodeEncodeError /\
  print_markdown_table strict [[[56448]]]%N [[104]]%N = UnicodeEncodeError /\
  print_markdown_table surrogateescape [[[56448]]]%N [[104]]%N
  = Printed [124; 32; 104; 32; 124; 10; 124; 32; 45; 32; 124; 10;
             124; 32; 56448; 32; 124; 10; 10]%N /\
  print_markdown_table strict [[[55296]]; []]%N [[104]]%N = IndexError.
Proof. repeat split; vm_compute; reflexivity. Qed.

(** Extra X10.  The ways [print_markdown_table] ends.  It raises
    [IndexError] exactly when some data row has fewer cells than there are
    headers.  With no such row it raises [UnicodeEncodeError] exactly when a
    header, or a cell under a header, holds a character that the stream
    cannot encode, and prints exactly when all of them can be encoded. *)
Theorem print_markdown_table_outcomes stdout data headers :
  (print_markdown_table stdout data headers = IndexError <->
     exists row, In row data /\ (length row < length headers)%nat) /\
  (print_markdown_table stdout data headers = UnicodeEncodeError <->
     (forall row, In row data -> (length headers <= length row)%nat) /\
     exists row i, In row (headers :: data) /\ (i < length headers)%nat /\
                   encodable stdout (nth i row []) = false) /\
  ((exists text, print_markdown_table stdout data headers = Printed text) <->
     (forall row, In row data -> (length headers <= length row)%nat) /\
     forall row i, In row (headers :: data) -> (i < length headers)%nat ->
                   encodable stdout (nth i row []) = true).
Proof.
  destruct (short_row_dec data (length headers)) as [H | H].
  - destruct (print_markdown_table_printed stdout data headers H) as (ws & _ & _ & E).
    unfold print in E. rewrite table_text_encodable in E.
    destruct (cells_encodable stdout (length headers) (headers :: data)) eqn:C.
    + pose proof (proj1 (cells_encodable_true _ _ _) C) as Hc.
      split; [|split]; split.
      * rewrite E. discriminate.
      * intros (row & Hr & Hl). specialize (H row Hr). lia.
      * rewrite E. discriminate.
      * intros (_ & row & i & Hr & Hi & F). rewrite (Hc row i Hr Hi) in F. discriminate.
      * intros _. split; [exact H | exact Hc].
      * intros _. eexists. exact E.
    + pose proof (proj1 (cells_encodable_false _ _ _) C) as Hc.
      split; [|split]; split.
      * rewrite E. discriminate.
      * intros (row & Hr & Hl). specialize (H row Hr). lia.
      * intros _. split; [exact H | exact Hc].
      * intros _. exact E.
      * intros [text E']. rewrite E in E'. discriminate.
      * intros [_ Ht]. destruct Hc as (row & i & Hr & Hi & F).
        rewrite (Ht row i Hr Hi) in F. discriminate.
  - destruct H as (row & Hr & Hl).
    pose proof (print_markdown_table_short stdout data headers row Hr Hl) as E.
    split; [|split]; split.
    + intros _. exists row. split; assumption.
    + intros _. exact E.
    + rewrite E. discriminate.
    + intros [H _]. specialize (H row Hr). lia.
    + intros [text E']. rewrite E in E'. discriminate.
    + intros [H _]. specialize (H row Hr). lia.
Qed.

(** Extra X11.  Cells beyond the number of headers are ignored: cutting
    every data row down to as many cells as there are headers changes
    nothing, neither the text printed nor a failure. *)
Theorem print_markdown_table_ignores_extra_cells stdout data headers :
  print_markdown_table stdout (map (firstn (length headers)) data) headers
  = print_markdown_table stdout data headers.
Proof.
  unfold print_markdown_table.
  assert (Ew : col_widths headers (map (firstn (length headers)) data)
               = col_widths headers data).
  { unfold col_widths. apply traverse_ext. intros i Hi. apply in_seq in Hi.
    unfold col_width. destruct (nth_error headers i); [|reflexivity].
    apply max_len_at_firstn. lia. }
  rewrite Ew. destruct (col_widths headers data) as [ws|]; [|reflexivity].
  rewrite traverse_map.
  rewrite (traverse_ext _ (format_row (length headers) ws));
    [reflexivity | intros row _; apply format_row_firstn].
Qed.



(** Extra X13.  A table without headers never fails, whatever the rows
    hold and whatever the error handler of the stream, and prints a header
    line and a separator line of ["|  |"]; of its data rows it prints one
    fewer than there are (none for an empty table), since the rows are
    joined and split again at newlines. *)
Theorem print_markdown_table_no_headers stdout data :
  print_markdown_table stdout data []
  = Printed (concat (repeat (table_line []) (2 + (length data - 1))) ++ [NEWLINE]).
Proof.
  destruct (print_markdown_table_printed stdout data []) as (ws & Ew & Hl & E).
  { intros row _. simpl. lia. }
  destruct ws; [|discriminate Hl].
  rewrite E. unfold print. rewrite table_text_encodable.
  replace (cells_encodable stdout (length (@nil str)) ([] :: data)) with true.
  - cbn [length]. rewrite row_text_no_columns, splitlines_join_empty, map_repeat.
    reflexivity.
  - symmetry. apply cells_encodable_true. intros row i _ Hi. simpl in Hi. lia.
Qed.
